(** * puppet.py: output sanitizing, package snapshots and the RPM delta report

    A shallow embedding of [src/puppet.py] (the Ansible module that runs the
    Puppet agent), together with the parts of Python's [re] and [difflib]
    modules that the program calls.

    Python [str] values are modelled as [string] (byte strings, as in the
    Python 2 interpreter the module was written for); inside the regular
    expression engine they are handled as [list ascii]. *)

From Stdlib Require Import Ascii String DecimalString.
From stdpp Require Import base list gmap strings sorting.

Local Open Scope string_scope.
Local Open Scope list_scope.
Local Open Scope nat_scope.

(** The line terminator, Python's ['\n']. *)
Definition nl : ascii := "010"%char.
Definition NL : string := String nl EmptyString.

(** ** The fragment of Python's [re] used by the program

    Every pattern of [puppet.py] is a sequence of one-character matchers, each
    optionally under a greedy [*], optionally anchored by a leading [^]. *)
Module Re.

Inductive atom : Type :=
| Chr (c : ascii)                               (* a literal character *)
| ChrI (c : ascii)                              (* a literal under (?i) *)
| Dot                                           (* [.]: anything but a newline *)
| Cls (cs : list ascii) (rs : list (ascii * ascii)). (* [ab...x-y...] *)

Inductive item : Type :=
| One (a : atom)
| Star (a : atom).

Record regex : Type := Regex { anchored : bool; items : list item }.

Definition in_range (lo hi c : ascii) : bool :=
  (nat_of_ascii lo <=? nat_of_ascii c)%nat && (nat_of_ascii c <=? nat_of_ascii hi)%nat.

(** ASCII case folding, as [(?i)] does on byte strings. *)
Definition lower (c : ascii) : ascii :=
  if in_range "A" "Z" c then ascii_of_nat (nat_of_ascii c + 32) else c.

Definition atom_matches (a : atom) (c : ascii) : bool :=
  match a with
  | Chr x => Ascii.eqb x c
  | ChrI x => Ascii.eqb (lower x) (lower c)
  | Dot => negb (Ascii.eqb c nl)
  | Cls cs rs =>
      existsb (fun x => Ascii.eqb x c) cs
      || existsb (fun r => in_range (fst r) (snd r) c) rs
  end.

(** Greedy [a*] followed by the continuation [k]: take as many characters as
    possible, give them back one at a time until [k] succeeds. *)
Fixpoint match_star (a : atom) (k : list ascii → option nat) (s : list ascii)
  : option nat :=
  match s with
  | c :: s' =>
      if atom_matches a c then
        match match_star a k s' with
        | Some n => Some (S n)
        | None => k s
        end
      else k s
  | [] => k s
  end.

(** [match_here p s]: the number of characters of [s] consumed by the
    backtracking match of [p] at the start of [s], if there is one. *)
Fixpoint match_here (p : list item) (s : list ascii) : option nat :=
  match p with
  | [] => Some 0
  | One a :: p' =>
      match s with
      | c :: s' => if atom_matches a c then S <$> match_here p' s' else None
      | [] => None
      end
  | Star a :: p' => match_star a (match_here p') s
  end.

(** [re.search]: a match at the start, or (unanchored) at any later
    position. *)
Fixpoint search_from (p : list item) (s : list ascii) : bool :=
  match match_here p s with
  | Some _ => true
  | None => match s with [] => false | _ :: s' => search_from p s' end
  end.

Definition search_list (r : regex) (s : list ascii) : bool :=
  if anchored r then bool_decide (is_Some (match_here (items r) s))
  else search_from (items r) s.

(** [re.sub]: scan from the left; replace each match by [repl] and resume
    after it; copy unmatched characters. [skip] counts the characters of
    the current match still to be dropped; [start] tells whether the scan is
    at position 0, the only place where an anchored pattern can match. An
    empty match is replaced and the scan moves on by one character; the
    patterns of [puppet.py] never match the empty string
    ([PuppetFacts.patterns_match_nonempty]). *)
Definition try_match (r : regex) (start : bool) (s : list ascii) : option nat :=
  if anchored r && negb start then None else match_here (items r) s.

Fixpoint sub_go (r : regex) (repl : list ascii) (start : bool) (skip : nat)
    (s : list ascii) : list ascii :=
  match s with
  | [] =>
      match skip, try_match r start [] with
      | 0, Some _ => repl
      | _, _ => []
      end
  | c :: s' =>
      match skip with
      | S k => sub_go r repl false k s'
      | 0 =>
          match try_match r start s with
          | Some (S n) => repl ++ sub_go r repl false n s'
          | Some 0 => repl ++ c :: sub_go r repl false 0 s'
          | None => c :: sub_go r repl false 0 s'
          end
      end
  end.

Definition sub_list (r : regex) (repl s : list ascii) : list ascii :=
  sub_go r repl true 0 s.

Definition sub (r : regex) (repl s : string) : string :=
  string_of_list_ascii
    (sub_list r (list_ascii_of_string repl) (list_ascii_of_string s)).

Definition search (r : regex) (s : string) : bool :=
  search_list r (list_ascii_of_string s).

(** Pattern text to items. *)
Definition lit (s : string) : list item :=
  (λ c, One (Chr c)) <$> list_ascii_of_string s.
Definition lit_i (s : string) : list item :=
  (λ c, One (ChrI c)) <$> list_ascii_of_string s.

End Re.

(** ** class Puppet *)
Module Puppet.

(** ['(?i)Info:.*\n'] *)
Definition info_re : Re.regex :=
  Re.Regex false (Re.lit_i "Info:" ++ [Re.Star Re.Dot; Re.One (Re.ChrI nl)]).

(** ['(?i)Notice: Ignoring --listen on onetime run\n'] *)
Definition notice_re : Re.regex :=
  Re.Regex false
    (Re.lit_i "Notice: Ignoring --listen on onetime run" ++ [Re.One (Re.ChrI nl)]).

(** ['.*default_db.*'] *)
Definition default_db_re : Re.regex :=
  Re.Regex false ([Re.Star Re.Dot] ++ Re.lit "default_db" ++ [Re.Star Re.Dot]).

(** ['.*password.*'] *)
Definition password_re : Re.regex :=
  Re.Regex false ([Re.Star Re.Dot] ++ Re.lit "password" ++ [Re.Star Re.Dot]).

Definition marker : string := "************Password filtered out************".

(** The four substitutions that [puppet_status] applies to the agent's
    standard output when [state == 'run']. *)
Definition remove_info (stdout : string) : string := Re.sub info_re "" stdout.
Definition remove_notice (stdout : string) : string := Re.sub notice_re "" stdout.
Definition redact_default_db (stdout : string) : string :=
  Re.sub default_db_re marker stdout.
Definition redact_password (stdout : string) : string :=
  Re.sub password_re marker stdout.

Definition sanitize (stdout : string) : string :=
  let stdout := remove_info stdout in
  let stdout := remove_notice stdout in
  let stdout := redact_default_db stdout in
  let stdout := redact_password stdout in
  stdout.

(** [run_command] is the Ansible helper that runs a command line and returns
    its exit code, standard output and standard error. *)
Definition puppet_status (run_command : string → Z * string * string)
    (state : string) : Z * string * string :=
  if String.eqb state "run" then
    let _ := run_command "puppet agent --enable" in
    let '(rc, stdout, stderr) := run_command "puppet agent --test --color 0" in
    (rc, sanitize stdout, stderr)
  else
    run_command ("puppet agent --" +:+ state).

End Puppet.

(** ** The part of Python's [difflib] behind [difflib.unified_diff]

    [SequenceMatcher(None, a, b)] with the default [autojunk=True]: there is
    no junk predicate, so the set [bjunk] is empty. Indices are natural
    numbers; [a !! i] is Python's [a[i]] for an index in range, and the
    matcher only reads indices in range. The [while] loops are written with
    a fuel that bounds their iterations; [DifflibFacts] shows that the fuel
    is never what ends them. The generators are run to completion and
    return lists. *)
Module Difflib.

(** A matching block [(i, j, k)]: [a[i:i+k] == b[j:j+k]]. *)
Record Match : Type := mkMatch { m_a : nat; m_b : nat; m_size : nat }.

Inductive tag : Type := Replace | Delete | Insert | Equal.

Record opcode : Type :=
  Op { op_tag : tag; op_i1 : nat; op_i2 : nat; op_j1 : nat; op_j2 : nat }.

Global Instance tag_eq_dec : EqDecision tag.
Proof. solve_decision. Defined.

(** *** [__chain_b] *)

(** [indices = b2j.setdefault(elt, []); indices.append(i)] *)
Definition chain_b_step (b2j : gmap string (list nat)) (ie : nat * string)
  : gmap string (list nat) :=
  <[ie.2 := default [] (b2j !! ie.2) ++ [ie.1]]> b2j.

Definition enumerate (b : list string) : list (nat * string) := imap pair b.

Definition is_popular (ntest : nat) (kv : string * list nat) : Prop :=
  ntest < length kv.2.

Global Instance is_popular_dec ntest kv : Decision (is_popular ntest kv).
Proof. unfold is_popular. apply _. Defined.

(** The dictionary [b2j] after the popular elements have been purged. *)
Definition chain_b (b : list string) : gmap string (list nat) :=
  let b2j := foldl chain_b_step ∅ (enumerate b) in
  let n := length b in
  if decide (200 ≤ n) then
    let ntest := n / 100 + 1 in
    filter (λ kv, ¬ is_popular ntest kv) b2j
  else b2j.

Section matcher.
Variables a b : list string.

Let b2j : gmap string (list nat) := chain_b b.

(** [isjunk] is [None]: [bjunk] stays empty. *)
Definition bjunk : gset string := ∅.
Definition isbjunk (x : string) : bool := bool_decide (x ∈ bjunk).

(** [j2len.get(j-1, 0)]; for [j = 0] the key [-1] is never present. *)
Definition j2lenget_pred (j2len : gmap nat nat) (j : nat) : nat :=
  match j with
  | 0 => 0
  | S j' => default 0 (j2len !! j')
  end.

(** The inner loop [for j in b2j.get(a[i], nothing)]: the state is the
    best block so far and [newj2len]. [i - k + 1] is written
    [i + 1 - k], the same number since [k ≤ i + 1]. *)
Fixpoint scan_row (blo bhi i : nat) (j2len : gmap nat nat) (js : list nat)
    (best : Match) (newj2len : gmap nat nat) : Match * gmap nat nat :=
  match js with
  | [] => (best, newj2len)
  | j :: js' =>
      if decide (j < blo) then scan_row blo bhi i j2len js' best newj2len
      else if decide (bhi ≤ j) then (best, newj2len)
      else
        let k := j2lenget_pred j2len j + 1 in
        let newj2len := <[j := k]> newj2len in
        let best :=
          if decide (m_size best < k) then mkMatch (i + 1 - k) (j + 1 - k) k
          else best in
        scan_row blo bhi i j2len js' best newj2len
  end.

(** One iteration of [for i in range(alo, ahi)]. *)
Definition scan_step (blo bhi : nat) (st : Match * gmap nat nat) (i : nat)
  : Match * gmap nat nat :=
  let js := default [] (x ← a !! i; b2j !! x) in
  scan_row blo bhi i st.2 js st.1 ∅.

Definition scan (alo ahi blo bhi : nat) : Match :=
  (foldl (scan_step blo bhi) (mkMatch alo blo 0, ∅) (seq alo (ahi - alo))).1.

(** [a[i] == b[j]] for indices in range. *)
Definition same_elt (i j : nat) : bool :=
  match a !! i, b !! j with
  | Some x, Some y => bool_decide (x = y)
  | _, _ => false
  end.

(** [isbjunk(b[j])] compared with the polarity the loop asks for. *)
Definition junk_is (want : bool) (j : nat) : bool :=
  match b !! j with
  | Some y => Bool.eqb (isbjunk y) want
  | None => false
  end.

(** [while besti > alo and bestj > blo and (not) isbjunk(b[bestj-1]) and
    a[besti-1] == b[bestj-1]]. The loop runs at most [besti] times, which
    is the fuel given by [find_longest_match]. *)
Definition back_cond (want : bool) (alo blo : nat) (m : Match) : bool :=
  bool_decide (alo < m_a m) && bool_decide (blo < m_b m)
  && junk_is want (m_b m - 1) && same_elt (m_a m - 1) (m_b m - 1).

Fixpoint extend_back (fuel : nat) (want : bool) (alo blo : nat) (m : Match)
  : Match :=
  match fuel with
  | 0 => m
  | S fuel' =>
      if back_cond want alo blo m then
        extend_back fuel' want alo blo
          (mkMatch (m_a m - 1) (m_b m - 1) (m_size m + 1))
      else m
  end.

(** [while besti+bestsize < ahi and bestj+bestsize < bhi and (not)
    isbjunk(b[bestj+bestsize]) and a[besti+bestsize] == b[bestj+bestsize]].
    It runs at most [ahi - (besti + bestsize)] times. *)
Definition fwd_cond (want : bool) (ahi bhi : nat) (m : Match) : bool :=
  bool_decide (m_a m + m_size m < ahi) && bool_decide (m_b m + m_size m < bhi)
  && junk_is want (m_b m + m_size m)
  && same_elt (m_a m + m_size m) (m_b m + m_size m).

Fixpoint extend_fwd (fuel : nat) (want : bool) (ahi bhi : nat) (m : Match)
  : Match :=
  match fuel with
  | 0 => m
  | S fuel' =>
      if fwd_cond want ahi bhi m then
        extend_fwd fuel' want ahi bhi (mkMatch (m_a m) (m_b m) (m_size m + 1))
      else m
  end.

Definition extend (want : bool) (alo ahi blo bhi : nat) (m : Match) : Match :=
  let m := extend_back (m_a m) want alo blo m in
  extend_fwd (ahi - (m_a m + m_size m)) want ahi bhi m.

Definition find_longest_match (alo ahi blo bhi : nat) : Match :=
  let m := scan alo ahi blo bhi in
  let m := extend false alo ahi blo bhi m in
  extend true alo ahi blo bhi m.

(** *** [get_matching_blocks]

    The work list [queue] is a stack: [queue.append] pushes and
    [queue.pop()] pops at the head of the list here. *)
Definition region : Type := nat * nat * nat * nat.

Definition region_weight (r : region) : nat :=
  let '(alo, ahi, _, _) := r in 2 * (ahi - alo) + 1.

Definition push_if (c : bool) (r : region) (queue : list region) : list region :=
  if c then r :: queue else queue.

Fixpoint blocks_loop (fuel : nat) (queue : list region) (blocks : list Match)
  : option (list Match) :=
  match queue with
  | [] => Some blocks
  | (alo, ahi, blo, bhi) :: queue =>
      match fuel with
      | 0 => None
      | S fuel' =>
          let x := find_longest_match alo ahi blo bhi in
          let '(mkMatch i j k) := x in
          if decide (k = 0) then blocks_loop fuel' queue blocks
          else
            let queue :=
              push_if (bool_decide (alo < i ∧ blo < j)) (alo, i, blo, j) queue in
            let queue :=
              push_if (bool_decide (i + k < ahi ∧ j + k < bhi))
                (i + k, ahi, j + k, bhi) queue in
            blocks_loop fuel' queue (blocks ++ [x])
      end
  end.

(** Tuple order, as used by [matching_blocks.sort()]. *)
Definition match_leb (x y : Match) : bool :=
  bool_decide (m_a x < m_a y)
  || (bool_decide (m_a x = m_a y)
      && (bool_decide (m_b x < m_b y)
          || (bool_decide (m_b x = m_b y) && bool_decide (m_size x ≤ m_size y)))).

Fixpoint insert_sorted (x : Match) (l : list Match) : list Match :=
  match l with
  | [] => [x]
  | y :: l' => if match_leb x y then x :: l else y :: insert_sorted x l'
  end.

Definition sort_blocks (l : list Match) : list Match := foldr insert_sorted [] l.

(** Collapsing adjacent blocks: the state is [(i1, j1, k1)] and
    [non_adjacent]. *)
Definition collapse_step (st : Match * list Match) (x : Match)
  : Match * list Match :=
  let '(mkMatch i1 j1 k1, non_adjacent) := st in
  let '(mkMatch i2 j2 k2) := x in
  if bool_decide (i1 + k1 = i2 ∧ j1 + k1 = j2) then
    (mkMatch i1 j1 (k1 + k2), non_adjacent)
  else
    (x, if decide (k1 = 0) then non_adjacent
        else non_adjacent ++ [mkMatch i1 j1 k1]).

Definition collapse (blocks : list Match) : list Match :=
  let '(mkMatch i1 j1 k1, non_adjacent) :=
    foldl collapse_step (mkMatch 0 0 0, []) blocks in
  let non_adjacent :=
    if decide (k1 = 0) then non_adjacent else non_adjacent ++ [mkMatch i1 j1 k1] in
  non_adjacent ++ [mkMatch (length a) (length b) 0].

Definition blocks_fuel : nat := 2 * length a + 1.

Definition raw_blocks : option (list Match) :=
  blocks_loop blocks_fuel [(0, length a, 0, length b)] [].

Definition get_matching_blocks : list Match :=
  collapse (sort_blocks (default [] raw_blocks)).

(** *** [get_opcodes] *)
Definition opcode_step (st : nat * nat * list opcode) (x : Match)
  : nat * nat * list opcode :=
  let '(i, j, answer) := st in
  let '(mkMatch ai bj size) := x in
  let answer :=
    if bool_decide (i < ai ∧ j < bj) then answer ++ [Op Replace i ai j bj]
    else if bool_decide (i < ai) then answer ++ [Op Delete i ai j bj]
    else if bool_decide (j < bj) then answer ++ [Op Insert i ai j bj]
    else answer in
  let i := ai + size in
  let j := bj + size in
  let answer :=
    if decide (size = 0) then answer else answer ++ [Op Equal ai i bj j] in
  (i, j, answer).

Definition get_opcodes : list opcode :=
  (foldl opcode_step (0, 0, []) get_matching_blocks).2.

(** *** [get_grouped_opcodes] *)
Definition fix_first (n : nat) (codes : list opcode) : list opcode :=
  match codes with
  | Op Equal i1 i2 j1 j2 :: rest =>
      Op Equal (i1 `max` (i2 - n)) i2 (j1 `max` (j2 - n)) j2 :: rest
  | _ => codes
  end.

Definition fix_last (n : nat) (codes : list opcode) : list opcode :=
  match last codes with
  | Some (Op Equal i1 i2 j1 j2) =>
      removelast codes ++ [Op Equal i1 (i2 `min` (i1 + n)) j1 (j2 `min` (j1 + n))]
  | _ => codes
  end.

(** The state is the current [group] and the groups yielded so far. *)
Definition group_step (n : nat) (st : list opcode * list (list opcode))
    (c : opcode) : list opcode * list (list opcode) :=
  let '(group, out) := st in
  let '(Op tg i1 i2 j1 j2) := c in
  if bool_decide (tg = Equal) && bool_decide (n + n < i2 - i1) then
    let group := group ++ [Op tg i1 (i2 `min` (i1 + n)) j1 (j2 `min` (j1 + n))] in
    ([Op tg (i1 `max` (i2 - n)) i2 (j1 `max` (j2 - n)) j2], out ++ [group])
  else (group ++ [c], out).

Definition get_grouped_opcodes (n : nat) : list (list opcode) :=
  let codes := get_opcodes in
  let codes := match codes with [] => [Op Equal 0 1 0 1] | _ => codes end in
  let codes := fix_first n codes in
  let codes := fix_last n codes in
  let '(group, out) := foldl (group_step n) ([], []) codes in
  match group with
  | [] => out
  | [Op Equal _ _ _ _] => out
  | _ => out ++ [group]
  end.

End matcher.

(** *** [unified_diff] *)

(** ['{}'.format(n)] for a non-negative integer. *)
Definition str_of_nat (n : nat) : string := NilEmpty.string_of_uint (Nat.to_uint n).

Definition _format_range_unified (start stop : nat) : string :=
  let beginning := start + 1 in
  let length := stop - start in
  if decide (length = 1) then str_of_nat beginning
  else
    let beginning := if decide (length = 0) then beginning - 1 else beginning in
    str_of_nat beginning +:+ "," +:+ str_of_nat length.

(** [l[i1:i2]] *)
Definition slice (l : list string) (i1 i2 : nat) : list string :=
  take (i2 - i1) (drop i1 l).

Definition opcode_lines (a b : list string) (c : opcode) : list string :=
  let '(Op tg i1 i2 j1 j2) := c in
  match tg with
  | Equal => String " " <$> slice a i1 i2
  | Replace => (String "-" <$> slice a i1 i2) ++ (String "+" <$> slice b j1 j2)
  | Delete => String "-" <$> slice a i1 i2
  | Insert => String "+" <$> slice b j1 j2
  end.

Definition group_lines (a b : list string) (lineterm : string)
    (group : list opcode) : list string :=
  let first := default (Op Equal 0 0 0 0) (head group) in
  let last := default (Op Equal 0 0 0 0) (last group) in
  let file1_range := _format_range_unified (op_i1 first) (op_i2 last) in
  let file2_range := _format_range_unified (op_j1 first) (op_j2 last) in
  ("@@ -" +:+ file1_range +:+ " +" +:+ file2_range +:+ " @@" +:+ lineterm)
    :: concat (opcode_lines a b <$> group).

(** The generator is run to completion; the file names and dates keep their
    default [''], so the two file header lines are ['--- '] and ['+++ ']. *)
Definition unified_diff (a b : list string) (n : nat) (lineterm : string)
  : list string :=
  match get_grouped_opcodes a b n with
  | [] => []
  | groups =>
      ("--- " +:+ lineterm) :: ("+++ " +:+ lineterm)
        :: concat (group_lines a b lineterm <$> groups)
  end.

End Difflib.

(** ** class Rpmdatabase *)
Module Rpmdatabase.

(** A header of the RPM database, as far as [rpm] reads it. *)
Record header : Type := Header { name : string; version : string; release : string }.

(** ["%s-%s-%s" % (h['name'], h['version'], h['release'])] *)
Definition nvr (h : header) : string :=
  name h +:+ "-" +:+ version h +:+ "-" +:+ release h.

(** [mi] is the match iterator [ts.dbMatch()], given by the headers it
    yields, in the order it yields them. *)
Definition rpm (mi : list header) : list string :=
  foldl (λ rpmlist h, rpmlist ++ [nvr h]) [] mi.

Definition seperator : string :=
  "================================================================================" +:+ NL.

Definition diffheader : string := "This is the RPM delta" +:+ NL.

(** ["^[-|+][a-zA-Z].*"] *)
Definition line_re : Re.regex :=
  Re.Regex true
    [Re.One (Re.Cls ["-"; "|"; "+"]%char []);
     Re.One (Re.Cls [] [("a", "z"); ("A", "Z")]%char);
     Re.Star Re.Dot].

Definition found (line : string) : bool := Re.search line_re line.

(** The loop of [formatdiff] that builds [text]. *)
Definition body_of (rpmdiff : list string) : string :=
  foldl (λ text line, if found line then text +:+ line +:+ NL else text) "" rpmdiff.

Definition formatdiff (rpmdiff : list string) : string :=
  let text := body_of rpmdiff in
  seperator +:+ diffheader +:+ text +:+ seperator.

(** Lines 153-154 of [main]: the diff of the two snapshots, with no context
    lines and no line terminator, formatted. *)
Definition rpmdiff_lines (prelist postlist : list string) : list string :=
  Difflib.unified_diff prelist postlist 0 "".

Definition format (prelist postlist : list string) : string :=
  formatdiff (rpmdiff_lines prelist postlist).

End Rpmdatabase.

(** ** [main]

    The Ansible side is what [main] uses of [AnsibleModule]: the two
    parameters, [run_command], and [exit_json] and [fail_json], which both
    end the process, so each is an outcome of [main]. The host the commands
    act on is threaded through the calls: [run_command] changes it, a query
    of the RPM database reads it. [run_command] is taken to return the exit
    code, the output and the error of the command, as it does for every
    command that could be started. *)
Module Main.

(** A Python string object. [state is 'disabled'] compares objects, not
    values: it holds when the value is that of the literal and the object is
    the interpreter's shared (interned) one, as the literal of the code is. *)
Record pystr : Type := PyStr { py_value : string; py_interned : bool }.

Definition py_is (x : pystr) (literal : string) : bool :=
  py_interned x && String.eqb (py_value x) literal.

(** [module.params]: [state] has the default [None], [packagediff] is a
    [bool]. *)
Record params : Type := Params { state : option pystr; packagediff : bool }.

Inductive outcome : Type :=
| exit_json (changed : bool) (rc : Z) (stdout stderr : string)
| fail_json (msg : string).

(** ["%s" % state] *)
Definition show_state (st : option pystr) : string :=
  match st with
  | None => "None"
  | Some x => py_value x
  end.

Definition accepted_states : list string :=
  ["run"; "enable"; "enabled"; "disable"; "disabled"].

Section main.
Variable host : Type.
Variable run_command : string → host → (Z * string * string) * host.
Variable dbMatch : host → list Rpmdatabase.header.

(** [Puppet.puppet_status], with the host threaded through its commands. *)
Definition puppet_status (state : string) (h : host) : (Z * string * string) * host :=
  if String.eqb state "run" then
    let '(_, h) := run_command "puppet agent --enable" h in
    let '((rc, stdout, stderr), h) := run_command "puppet agent --test --color 0" h in
    ((rc, Puppet.sanitize stdout, stderr), h)
  else
    run_command ("puppet agent --" +:+ state) h.

(** [state] after the [elif] chain of lines 144-147. *)
Definition normalise (st : pystr) : string :=
  if py_is st "disabled" then "disable"
  else if py_is st "enabled" then "enable"
  else py_value st.

Definition main (p : params) (h : host) : outcome * host :=
  match state p with
  | Some st =>
      if bool_decide (py_value st ∈ accepted_states) then
        let state := normalise st in
        if packagediff p && String.eqb state "run" then
          let prelist := Rpmdatabase.rpm (dbMatch h) in
          let '((rc, stdout, stderr), h) := puppet_status state h in
          let postlist := Rpmdatabase.rpm (dbMatch h) in
          let rpmdiff := Difflib.unified_diff prelist postlist 0 "" in
          let rpmdiff := Rpmdatabase.formatdiff rpmdiff in
          let stdout := stdout +:+ rpmdiff in
          if bool_decide (rc ≠ 2%Z) then
            (fail_json ("Puppet encountered errors. " +:+ stdout +:+ " " +:+ stderr), h)
          else (exit_json true 0 stdout stderr, h)
        else
          let '((rc, stdout, stderr), h) := puppet_status state h in
          (exit_json true rc stdout stderr, h)
      else
        (fail_json ("value of state must be one of: enabled, disabled, run, got: "
                    +:+ show_state (state p)), h)
  | None =>
      (fail_json ("value of state must be one of: enabled, disabled, run, got: "
                  +:+ show_state (state p)), h)
  end.

End main.

End Main.

(** ** Vocabulary of the statements *)

(** Strings as lists of characters, and back. *)
Abbreviation chars := list_ascii_of_string.
Abbreviation str := string_of_list_ascii.

(** Python's [w in s] on strings. *)
Fixpoint is_prefix (w s : list ascii) : bool :=
  match w, s with
  | [], _ => true
  | x :: w', c :: s' => Ascii.eqb x c && is_prefix w' s'
  | _ :: _, [] => false
  end.

Fixpoint is_infix (w s : list ascii) : bool :=
  is_prefix w s || match s with [] => false | _ :: s' => is_infix w s' end.

(** The same, ignoring the case of ASCII letters. *)
Fixpoint is_prefix_ci (w s : list ascii) : bool :=
  match w, s with
  | [], _ => true
  | x :: w', c :: s' => Ascii.eqb (Re.lower x) (Re.lower c) && is_prefix_ci w' s'
  | _ :: _, [] => false
  end.

Fixpoint is_infix_ci (w s : list ascii) : bool :=
  is_prefix_ci w s || match s with [] => false | _ :: s' => is_infix_ci w s' end.

Definition contains (w s : string) : bool :=
  is_infix (list_ascii_of_string w) (list_ascii_of_string s).
Definition contains_ci (w s : string) : bool :=
  is_infix_ci (list_ascii_of_string w) (list_ascii_of_string s).
Definition starts_with_ci (w s : string) : bool :=
  is_prefix_ci (list_ascii_of_string w) (list_ascii_of_string s).

(** A string without a line terminator. *)
Definition nl_free (s : list ascii) : Prop := nl ∉ s.
Definition one_line (s : string) : Prop := nl_free (list_ascii_of_string s).

(** A position where a line starts: the text before it is empty or ends with
    a newline. *)
Definition ends_nl (s : list ascii) : Prop := ∃ p, s = p ++ [nl].
Definition at_line_start (pre : string) : Prop :=
  pre = "" ∨ ∃ p, pre = p +:+ NL.

(** [s.split('\n')] and ['\n'.join(ls)]. *)
Fixpoint split_nl (s : list ascii) : list (list ascii) :=
  match s with
  | [] => [[]]
  | c :: s' =>
      if Ascii.eqb c nl then [] :: split_nl s'
      else match split_nl s' with
           | l :: ls => (c :: l) :: ls
           | [] => [[c]]
           end
  end.

Fixpoint join_nl (ls : list (list ascii)) : list ascii :=
  match ls with
  | [] => []
  | [l] => l
  | l :: ls' => l ++ nl :: join_nl ls'
  end.

Definition lines (s : string) : list string :=
  string_of_list_ascii <$> split_nl (list_ascii_of_string s).
Definition unlines (ls : list string) : string :=
  string_of_list_ascii (join_nl (list_ascii_of_string <$> ls)).

(** What the two redaction rules do to one line. *)
Definition redact_line (l : string) : string :=
  if contains "default_db" l || contains "password" l then Puppet.marker else l.

(** The lines [unified_diff] can yield: the two file headers, a hunk header,
    or an element of one of the sequences after a space, a [-] or a [+]. *)
Definition diff_line (a b : list string) (l : string) : Prop :=
  l = "--- " ∨ l = "+++ " ∨ (∃ r, l = String "@" r)
  ∨ ∃ c x, l = String c x ∧ (c = " " ∨ c = "-" ∨ c = "+")%char ∧ (x ∈ a ∨ x ∈ b).

(** The two character classes of the line filter of [formatdiff]. *)
Definition is_sign (c : ascii) : bool :=
  Ascii.eqb "-" c || Ascii.eqb "|" c || Ascii.eqb "+" c.

Definition is_letter (c : ascii) : bool :=
  Re.in_range "a" "z" c || Re.in_range "A" "Z" c.

(** The lines that pass the filter, and a text made of newline-terminated
    lines. *)
Definition kept (rpmdiff : list string) : list string :=
  filter (λ l, Rpmdatabase.found l) rpmdiff.

Definition concat_lines (ls : list string) : string :=
  foldr (λ l acc, l +:+ NL +:+ acc) "" ls.

(** A change line: a sign, then a letter. *)
Definition change_line (l : string) : Prop :=
  ∃ c1 c2 rest,
    l = String c1 (String c2 rest) ∧ (c1 = "+" ∨ c1 = "-")%char ∧ is_letter c2 = true.

(** The control lines of a unified diff. *)
Definition control_line (l : string) : Prop :=
  l = "--- " ∨ l = "+++ " ∨ ∃ r, l = String "@" r.

(** ** Notions used in the proofs *)

(** *** The matcher *)
Definition item_atom (it : Re.item) : Re.atom :=
  match it with Re.One a | Re.Star a => a end.

(** Patterns none of whose atoms can consume a newline. *)
Definition line_bound (p : list Re.item) : Prop :=
  Forall (λ it, Re.atom_matches (item_atom it) nl = false) p.

(** [re.sub] with an unanchored pattern. *)
Definition sub_scan (p : list Re.item) (repl s : list ascii) : list ascii :=
  Re.sub_go (Re.Regex false p) repl false 0 s.

(** The number of mandatory characters of a pattern. *)
Fixpoint min_width (p : list Re.item) : nat :=
  match p with
  | [] => 0
  | Re.One _ :: p' => S (min_width p')
  | Re.Star _ :: p' => min_width p'
  end.

(** ['.*w.*'], and what its substitution by [repl] does to one line. *)
Definition around (w : list ascii) : list Re.item :=
  [Re.Star Re.Dot] ++ ((λ c, Re.One (Re.Chr c)) <$> w) ++ [Re.Star Re.Dot].

Definition replace_if_infix (w repl u : list ascii) : list ascii :=
  if is_infix w u then repl else u.

(** The two removal patterns without their final newline. *)
Definition info_head : list Re.item := Re.lit_i "Info:" ++ [Re.Star Re.Dot].
Definition notice_head : list Re.item :=
  Re.lit_i "Notice: Ignoring --listen on onetime run".

(** *** The sequence matcher *)

(** The block found so far lies in [a[alo:hi]]. *)
Definition in_rows (alo hi : nat) (m : Difflib.Match) : Prop :=
  alo ≤ Difflib.m_a m ∧ Difflib.m_a m + Difflib.m_size m ≤ hi.

(** Run lengths recorded for the previous row. *)
Definition runs_below (alo hi : nat) (j2len : gmap nat nat) : Prop :=
  ∀ j v, j2len !! j = Some v → v + alo ≤ hi.

(** The regions of the work list, and the measure that decreases. *)
Definition region_ok (r : Difflib.region) : Prop :=
  let '(alo, ahi, _, _) := r in alo ≤ ahi.

Definition queue_weight (queue : list Difflib.region) : nat :=
  sum_list (Difflib.region_weight <$> queue).

(** The positions of [x] in [l], in increasing order. *)
Definition positions (x : string) (l : list string) : list nat :=
  (filter (λ ie : nat * string, ie.2 = x) (Difflib.enumerate l)).*1.

(** [s[i]] is still a key of [b2j] (it is not a popular element). *)
Definition nonpop (s : list string) (i : nat) : bool :=
  bool_decide (is_Some (x ← s !! i; Difflib.chain_b s !! x)).

(** The length of the stretch of such elements that ends at [i]. *)
Fixpoint run (s : list string) (i : nat) : nat :=
  match i with
  | 0 => if nonpop s 0 then 1 else 0
  | S i' => if nonpop s (S i') then S (run s i') else 0
  end.

Definition pred_run (s : list string) (i : nat) : nat :=
  match i with 0 => 0 | S i' => run s i' end.

(** What is known of [j2len] when row [i] of a sequence compared with itself
    starts. *)
Definition row_pre (s : list string) (i : nat) (j2len : gmap nat nat) : Prop :=
  (∀ j v, j2len !! j = Some v → v ≤ run s j ∧ v ≤ pred_run s i)
  ∧ Difflib.j2lenget_pred j2len i = pred_run s i.

(** The state of the inner loop of row [i] with [js] still to visit:
    the best block is on the diagonal, it is at least as long as every
    stretch that ends above row [i], and column [i] is either still to
    come or has been recorded with its stretch. *)
Definition inner (s : list string) (i : nat) (js : list nat)
    (best : Difflib.Match) (nj : gmap nat nat) : Prop :=
  Difflib.m_a best = Difflib.m_b best
  ∧ (∀ i', i' < i → run s i' ≤ Difflib.m_size best)
  ∧ (i ∈ js ∨ (run s i ≤ Difflib.m_size best ∧ nj !! i = Some (run s i)))
  ∧ (∀ j v, nj !! j = Some v → v ≤ run s j ∧ v ≤ run s i).

(** The state of the outer loop when row [i] starts. *)
Definition outer (s : list string) (i : nat) (st : Difflib.Match * gmap nat nat)
  : Prop :=
  Difflib.m_a st.1 = Difflib.m_b st.1
  ∧ (∀ i', i' < i → run s i' ≤ Difflib.m_size st.1)
  ∧ row_pre s i st.2.

(** *** Genuine blocks and what the opcodes cover *)

(** [a[i:i+k] == b[j:j+k]], all indices in range. *)
Definition matches_at (a b : list string) (i j k : nat) : Prop :=
  ∀ t, t < k → ∃ x, a !! (i + t) = Some x ∧ b !! (j + t) = Some x.

Definition genuine (a b : list string) (m : Difflib.Match) : Prop :=
  matches_at a b (Difflib.m_a m) (Difflib.m_b m) (Difflib.m_size m).

(** The contract of [find_longest_match]. *)
Definition good_block (a b : list string) (alo ahi blo bhi : nat)
    (m : Difflib.Match) : Prop :=
  alo ≤ Difflib.m_a m ∧ Difflib.m_a m + Difflib.m_size m ≤ ahi
  ∧ blo ≤ Difflib.m_b m ∧ Difflib.m_b m + Difflib.m_size m ≤ bhi
  ∧ genuine a b m.

(** Every run recorded in [j2len] for the row above [hi] is a common block
    that ends in that row. *)
Definition runs_genuine (a b : list string) (alo blo bhi hi : nat)
    (j2len : gmap nat nat) : Prop :=
  ∀ j v, j2len !! j = Some v →
    v + alo ≤ hi ∧ v + blo ≤ j + 1 ∧ j < bhi
    ∧ matches_at a b (hi - v) (j + 1 - v) v.

Definition region_ok2 (r : Difflib.region) : Prop :=
  let '(alo, ahi, blo, bhi) := r in alo ≤ ahi ∧ blo ≤ bhi.

(** An [equal] opcode spans a common block; an [insert] takes nothing from
    [a], a [delete] nothing from [b]. *)
Definition op_ok (a b : list string) (op : Difflib.opcode) : Prop :=
  match Difflib.op_tag op with
  | Difflib.Equal =>
      matches_at a b (Difflib.op_i1 op) (Difflib.op_j1 op)
        (Difflib.op_i2 op - Difflib.op_i1 op)
      ∧ Difflib.op_j2 op - Difflib.op_j1 op = Difflib.op_i2 op - Difflib.op_i1 op
  | Difflib.Insert => Difflib.op_i2 op ≤ Difflib.op_i1 op
  | Difflib.Delete => Difflib.op_j2 op ≤ Difflib.op_j1 op
  | Difflib.Replace => True
  end.

(** The opcodes one step of [get_opcodes] appends. *)
Definition gap_ops (i j ai bj : nat) : list Difflib.opcode :=
  if bool_decide (i < ai ∧ j < bj) then [Difflib.Op Difflib.Replace i ai j bj]
  else if bool_decide (i < ai) then [Difflib.Op Difflib.Delete i ai j bj]
  else if bool_decide (j < bj) then [Difflib.Op Difflib.Insert i ai j bj]
  else [].

Definition equal_ops (ai bj size : nat) : list Difflib.opcode :=
  if decide (size = 0) then []
  else [Difflib.Op Difflib.Equal ai (ai + size) bj (bj + size)].

Definition covered_a (ops : list Difflib.opcode) (p : nat) : Prop :=
  ∃ op, op ∈ ops ∧ Difflib.op_i1 op ≤ p ∧ p < Difflib.op_i2 op.

Definition covered_b (ops : list Difflib.opcode) (q : nat) : Prop :=
  ∃ op, op ∈ ops ∧ Difflib.op_j1 op ≤ q ∧ q < Difflib.op_j2 op.

(** What [get_opcodes] has reached with its cursor at [(i, j)]: the opcodes
    so far cover [a[:i]] and [b[:j]]. *)
Definition cover (a b : list string) (i j : nat) (answer : list Difflib.opcode)
  : Prop :=
  (∀ p, p < i → covered_a answer p)
  ∧ (∀ q, q < j → covered_b answer q)
  ∧ Forall (op_ok a b) answer.

(** The lines of a diff, with the sequence each element comes from. *)
Definition signed_line (a b : list string) (l : string) : Prop :=
  control_line l
  ∨ (∃ x, l = String " " x ∧ x ∈ a)
  ∨ (∃ x, l = String "-" x ∧ x ∈ a)
  ∨ (∃ x, l = String "+" x ∧ x ∈ b).

(** An identifier that begins with an ASCII letter. *)
Definition starts_with_letter (x : string) : bool :=
  match x with
  | String c _ => is_letter c
  | EmptyString => false
  end.

(** The two commands of [puppet_status] for [state == 'run']: the result of
    the test run on the host that the enabling command leaves. *)
Definition agent_run {host : Type}
    (run_command : string → host → (Z * string * string) * host) (h : host)
  : (Z * string * string) * host :=
  run_command "puppet agent --test --color 0" (run_command "puppet agent --enable" h).2.

(** A host for instances of the statements about [main]: its state is the
    list of the commands run so far, every command ends with the code [rc],
    and the test run installs a package. *)
Definition sample_run_command (rc : Z) (cmd : string) (log : list string)
  : (Z * string * string) * list string :=
  ((rc, "Notice: Finished catalog run" +:+ NL, ""), log ++ [cmd]).

Definition sample_dbMatch (log : list string) : list Rpmdatabase.header :=
  if bool_decide ("puppet agent --test --color 0" ∈ log)
  then [Rpmdatabase.Header "bash" "4.2" "1"; Rpmdatabase.Header "zsh" "5.0" "2"]
  else [Rpmdatabase.Header "bash" "4.2" "1"].

(** Closed decidable facts are settled by evaluation. *)
Ltac by_evaluation := apply (bool_decide_unpack _); by vm_compute.

(** ** Facts about the matcher *)
Module ReFacts.
Import Re.

Lemma match_star_nil a k : match_star a k [] = k [].
Proof. done. Qed.

Lemma match_star_cons a k c s :
  match_star a k (c :: s)
  = if atom_matches a c then
      match match_star a k s with Some n => Some (S n) | None => k (c :: s) end
    else k (c :: s).
Proof. done. Qed.

Lemma match_star_le a k s n :
  (∀ t m, k t = Some m → m ≤ length t) →
  match_star a k s = Some n → n ≤ length s.
Proof.
  intros Hk. revert n. induction s as [|c s IH]; intros n; simpl.
  - apply Hk.
  - destruct (atom_matches a c).
    + destruct (match_star a k s) as [m|] eqn:E.
      * intros [= <-]. specialize (IH _ eq_refl). lia.
      * apply (Hk (c :: s)).
    + apply (Hk (c :: s)).
Qed.

Lemma match_here_le p : ∀ s n, match_here p s = Some n → n ≤ length s.
Proof.
  induction p as [|[a|a] p IH]; intros s n; simpl.
  - intros [= <-]. lia.
  - destruct s as [|c s]; [done|]. destruct (atom_matches a c); [|done].
    destruct (match_here p s) as [m|] eqn:E; [|done].
    intros [= <-]. apply IH in E. simpl. lia.
  - apply match_star_le. apply IH.
Qed.

(** What follows a newline does not matter to a line-bound pattern. *)
Lemma match_star_nl_cut a k v :
  atom_matches a nl = false →
  (∀ u, k (u ++ nl :: v) = k u) →
  ∀ u, match_star a k (u ++ nl :: v) = match_star a k u.
Proof.
  intros Ha Hk u. induction u as [|c u IH]; simpl.
  - rewrite Ha. apply (Hk []).
  - rewrite IH. pose proof (Hk (c :: u)) as Hc. simpl in Hc. by rewrite Hc.
Qed.

Lemma match_here_nl_cut p v :
  line_bound p → ∀ u, match_here p (u ++ nl :: v) = match_here p u.
Proof.
  induction 1 as [|it p Hit Hp IH]; intros u; [done|].
  destruct it as [a|a]; simpl in *.
  - destruct u as [|c u]; simpl.
    + by rewrite Hit.
    + by rewrite IH.
  - by apply match_star_nl_cut.
Qed.

(** A pattern that ends with a mandatory character after a line-bound
    part decides its match within the text up to a newline. *)
Lemma ends_nl_cons c s :
  ends_nl (c :: s) → (c = nl ∧ s = []) ∨ (ends_nl s).
Proof.
  intros [[|c0 p] Hp]; simplify_eq/=; [by left|right]. by exists p.
Qed.

Lemma match_here_line_end p a X :
  line_bound p →
  ∀ pre, ends_nl pre →
    match_here (p ++ [One a]) (pre ++ X) = match_here (p ++ [One a]) pre.
Proof.
  induction 1 as [|it p Hit Hp IH]; intros pre Hpre.
  - destruct pre as [|c pre]; [by destruct Hpre as [[|??] ?]|]. done.
  - destruct it as [b|b]; simpl in *.
    + destruct pre as [|c pre]; [by destruct Hpre as [[|??] ?]|]. simpl.
      destruct (ends_nl_cons _ _ Hpre) as [[-> ->]|Hpre'].
      * by rewrite Hit.
      * by rewrite IH.
    + induction pre as [|c pre IHpre]; [by destruct Hpre as [[|??] ?]|].
      simpl. pose proof (IH (c :: pre) Hpre) as Hc. simpl in Hc. rewrite Hc.
      destruct (ends_nl_cons _ _ Hpre) as [[-> ->]|Hpre'].
      * by rewrite Hit.
      * by rewrite (IHpre Hpre').
Qed.

Lemma match_here_snoc_nil p a : match_here (p ++ [One a]) [] = None.
Proof. induction p as [|[b|b] p IH]; simpl; done. Qed.

(** *** [re.sub] with an unanchored pattern *)
Lemma sub_list_unanchored p repl s : sub_list (Regex false p) repl s = sub_scan p repl s.
Proof. by destruct s. Qed.

Lemma sub_go_skip r repl s : ∀ k,
  k ≤ length s → sub_go r repl false k s = sub_go r repl false 0 (drop k s).
Proof.
  induction s as [|c s IH]; intros [|k] Hk; simpl in *; try done; try lia.
  apply IH. lia.
Qed.

Lemma scan_nil p repl :
  sub_scan p repl [] = match match_here p [] with Some _ => repl | None => [] end.
Proof. done. Qed.

Lemma scan_cons p repl c s :
  sub_scan p repl (c :: s) =
    match match_here p (c :: s) with
    | Some (S n) => repl ++ sub_scan p repl (drop n s)
    | Some 0 => repl ++ c :: sub_scan p repl s
    | None => c :: sub_scan p repl s
    end.
Proof.
  unfold sub_scan. simpl. unfold try_match. simpl.
  destruct (match_here p (c :: s)) as [[|n]|] eqn:E; try done.
  apply match_here_le in E. simpl in E. rewrite sub_go_skip; [done|lia].
Qed.

Lemma ends_nl_drop n s : ends_nl s → drop n s = [] ∨ ends_nl (drop n s).
Proof.
  intros [p ->]. destruct (decide (n ≤ length p)) as [Hn|Hn].
  - right. exists (drop n p). rewrite drop_app_le; done.
  - left. apply drop_ge. rewrite length_app. simpl. lia.
Qed.

(** A pattern made of a line-bound part and a final mandatory character
    works on each newline-terminated stretch of text by itself. *)
Lemma scan_app_line_end p a repl X :
  line_bound p →
  ∀ pre, pre = [] ∨ ends_nl pre →
    sub_scan (p ++ [One a]) repl (pre ++ X)
    = sub_scan (p ++ [One a]) repl pre ++ sub_scan (p ++ [One a]) repl X.
Proof.
  intros Hp pre. remember (length pre) as n eqn:Hn. revert pre Hn.
  induction n as [n IH] using lt_wf_ind. intros pre -> Hpre.
  destruct pre as [|c pre].
  { simpl. by rewrite scan_nil, match_here_snoc_nil. }
  destruct Hpre as [|Hpre]; [done|].
  assert (Htail : pre = [] ∨ ends_nl pre).
  { destruct (ends_nl_cons _ _ Hpre) as [[_ ->]|]; auto. }
  change ((c :: pre) ++ X) with (c :: (pre ++ X)).
  rewrite !scan_cons.
  pose proof (match_here_line_end p a X Hp (c :: pre) Hpre) as Hm.
  simpl in Hm. rewrite Hm.
  destruct (match_here (p ++ [One a]) (c :: pre)) as [[|k]|] eqn:E.
  - rewrite (IH (length pre)); simpl; auto. by rewrite <- app_assoc.
  - apply match_here_le in E. simpl in E.
    rewrite drop_app_le by lia.
    rewrite (IH (length (drop k pre))); auto.
    + by rewrite app_assoc.
    + rewrite length_drop. simpl. lia.
    + destruct Htail as [->|Ht]; [left; by rewrite drop_nil|].
      by apply ends_nl_drop.
  - rewrite (IH (length pre)); simpl; auto.
Qed.

(** *** Literal prefixes *)
Lemma match_here_lit_i (w : list ascii) p : ∀ s,
  match_here (((λ c, One (ChrI c)) <$> w) ++ p) s
  = if is_prefix_ci w s
    then (λ m, length w + m) <$> match_here p (drop (length w) s)
    else None.
Proof.
  induction w as [|x w IH]; intros s; simpl.
  - rewrite drop_0. by destruct (match_here p s).
  - destruct s as [|c s]; [done|]. simpl.
    destruct (Ascii.eqb (lower x) (lower c)); [|done]. simpl.
    rewrite IH. destruct (is_prefix_ci w s); [|done].
    by destruct (match_here p (drop (length w) s)).
Qed.

Lemma match_here_lit (w : list ascii) p : ∀ s,
  match_here (((λ c, One (Chr c)) <$> w) ++ p) s
  = if is_prefix w s
    then (λ m, length w + m) <$> match_here p (drop (length w) s)
    else None.
Proof.
  induction w as [|x w IH]; intros s; simpl.
  - rewrite drop_0. by destruct (match_here p s).
  - destruct s as [|c s]; [done|]. simpl.
    destruct (Ascii.eqb x c); [|done]. simpl.
    rewrite IH. destruct (is_prefix w s); [|done].
    by destruct (match_here p (drop (length w) s)).
Qed.

Lemma is_prefix_ci_length w : ∀ s, is_prefix_ci w s = true → length w ≤ length s.
Proof.
  induction w as [|x w IH]; intros [|c s]; simpl; try done; try lia.
  intros [_ H]%andb_prop. apply IH in H. lia.
Qed.

Lemma is_prefix_ci_app w : ∀ s t, is_prefix_ci w s = true → is_prefix_ci w (s ++ t) = true.
Proof.
  induction w as [|x w IH]; intros [|c s] t; simpl; try done.
  intros [-> H]%andb_prop. simpl. by apply IH.
Qed.

Lemma is_prefix_length w : ∀ s, is_prefix w s = true → length w ≤ length s.
Proof.
  induction w as [|x w IH]; intros [|c s]; simpl; try done; try lia.
  intros [_ H]%andb_prop. apply IH in H. lia.
Qed.

(** Where the literal head of a pattern does not occur, nothing is replaced. *)
Lemma scan_lit_i_absent (w : list ascii) p repl : ∀ s,
  is_infix_ci w s = false → sub_scan (((λ c, One (ChrI c)) <$> w) ++ p) repl s = s.
Proof.
  induction s as [|c s IH]; intros H; simpl in H;
    apply orb_false_elim in H as [Hp Hi].
  - by rewrite scan_nil, match_here_lit_i, Hp.
  - rewrite scan_cons, match_here_lit_i, Hp. f_equal. by apply IH.
Qed.

(** A match is at least as long as the mandatory characters of the pattern. *)
Lemma match_star_min a k w : ∀ s n,
  (∀ t m, k t = Some m → w ≤ m) → match_star a k s = Some n → w ≤ n.
Proof.
  induction s as [|c s IH]; intros n Hk; [apply Hk|].
  rewrite match_star_cons. destruct (atom_matches a c); [|apply Hk].
  destruct (match_star a k s) as [m|] eqn:E; [|apply Hk].
  intros [= <-]. specialize (IH m Hk eq_refl). lia.
Qed.

Lemma match_here_min p : ∀ s n, match_here p s = Some n → min_width p ≤ n.
Proof.
  induction p as [|[a|a] p IH]; intros s n; simpl.
  - lia.
  - destruct s as [|c s]; [done|]. destruct (atom_matches a c); [|done].
    destruct (match_here p s) as [m|] eqn:E; [|done].
    intros [= <-]. apply IH in E. lia.
  - apply match_star_min. apply IH.
Qed.

(** *** [.*] on one line *)
Lemma dot_matches c : c ≠ nl → atom_matches Dot c = true.
Proof.
  intros Hc. simpl. by destruct (Ascii.eqb_spec c nl).
Qed.

Lemma nl_free_nil : nl_free [].
Proof. unfold nl_free. apply not_elem_of_nil. Qed.

Lemma nl_free_cons c s : nl_free (c :: s) ↔ c ≠ nl ∧ nl_free s.
Proof. unfold nl_free. rewrite not_elem_of_cons. split; intros [??]; split; congruence. Qed.

Lemma nl_free_app s t : nl_free (s ++ t) ↔ nl_free s ∧ nl_free t.
Proof. unfold nl_free. rewrite not_elem_of_app. done. Qed.

Lemma nl_free_drop n s : nl_free s → nl_free (drop n s).
Proof.
  unfold nl_free. intros Hs Hin. apply Hs.
  rewrite <- (take_drop n s). apply elem_of_app. by right.
Qed.

Lemma star_dot_then_nl a v :
  atom_matches a nl = true →
  ∀ u, nl_free u →
    match_star Dot (match_here [One a]) (u ++ nl :: v) = Some (length u + 1).
Proof.
  intros Ha u. set (k := match_here [One a]).
  induction u as [|c u IH]; intros Hu; simpl.
  - unfold k. simpl. by rewrite Ha.
  - apply nl_free_cons in Hu as [Hc Hu].
    destruct (Ascii.eqb_spec c nl) as [|_]; [done|]. simpl.
    by rewrite (IH Hu).
Qed.

Lemma star_dot_line : ∀ t, nl_free t → match_here [Star Dot] t = Some (length t).
Proof.
  induction t as [|c t IH]; intros Ht; [done|].
  apply nl_free_cons in Ht as [Hc Ht]. simpl in *.
  destruct (Ascii.eqb_spec c nl) as [|_]; [done|]. simpl.
  by rewrite (IH Ht).
Qed.

(** ['.*w.*'] on one line: the whole line when it contains [w]. *)
Lemma around_tail w t :
  nl_free t →
  match_here (((λ c, One (Chr c)) <$> w) ++ [Star Dot]) t
  = if is_prefix w t then Some (length t) else None.
Proof.
  intros Ht. rewrite match_here_lit.
  destruct (is_prefix w t) eqn:E; [|done].
  rewrite star_dot_line by by apply nl_free_drop.
  simpl. f_equal. apply is_prefix_length in E. rewrite length_drop. lia.
Qed.

Lemma match_around w : ∀ u,
  nl_free u →
  match_here (around w) u = if is_infix w u then Some (length u) else None.
Proof.
  intros u. unfold around. simpl.
  induction u as [|c u IH]; intros Hu.
  - rewrite match_star_nil, around_tail by done. simpl.
    by rewrite orb_false_r.
  - pose proof Hu as Hcu. apply nl_free_cons in Hu as [Hc Hu].
    rewrite match_star_cons, (dot_matches c Hc), (IH Hu).
    simpl is_infix. destruct (is_infix w u).
    + by rewrite orb_true_r.
    + rewrite orb_false_r. by rewrite around_tail.
Qed.

(** *** Substitution of ['.*w.*'], line by line *)
Section around.
Variables (w repl : list ascii).
Hypothesis Hw : w ≠ [].
Hypothesis Hwnl : nl_free w.

Lemma around_line_bound : line_bound (around w).
Proof.
  unfold around, line_bound. rewrite !Forall_app, Forall_fmap. split_and!.
  - by repeat constructor.
  - apply Forall_forall. intros c Hc. simpl.
    destruct (Ascii.eqb_spec c nl) as [->|]; done.
  - by repeat constructor.
Qed.

Lemma not_infix_nil : is_infix w [] = false.
Proof. by destruct w. Qed.

Lemma match_around_cut u v :
  nl_free u →
  match_here (around w) (u ++ nl :: v)
  = if is_infix w u then Some (length u) else None.
Proof.
  intros Hu. rewrite match_here_nl_cut by apply around_line_bound.
  by apply match_around.
Qed.

Lemma scan_around_skip v : ∀ u,
  nl_free u → is_infix w u = false →
  sub_scan (around w) repl (u ++ nl :: v) = u ++ nl :: sub_scan (around w) repl v.
Proof.
  induction u as [|c u IH]; intros Hu Hin.
  - assert (match_here (around w) (nl :: v) = None) as Hm.
    { pose proof (match_around_cut [] v Hu) as Hm.
      by rewrite not_infix_nil in Hm. }
    simpl app. by rewrite scan_cons, Hm.
  - assert (match_here (around w) (c :: u ++ nl :: v) = None) as Hm.
    { pose proof (match_around_cut (c :: u) v Hu) as Hm.
      by rewrite Hin in Hm. }
    change ((c :: u) ++ nl :: v) with (c :: (u ++ nl :: v)).
    rewrite scan_cons, Hm. simpl. f_equal.
    simpl in Hin. apply orb_false_elim in Hin as [Hp Hin].
    apply IH; [|done]. by apply nl_free_cons in Hu as [_ ?].
Qed.

Lemma scan_around_line u v :
  nl_free u →
  sub_scan (around w) repl (u ++ nl :: v)
  = replace_if_infix w repl u ++ nl :: sub_scan (around w) repl v.
Proof.
  intros Hu. unfold replace_if_infix.
  destruct (is_infix w u) eqn:Hin; [|by apply scan_around_skip].
  destruct u as [|c u]; [by rewrite not_infix_nil in Hin|].
  assert (match_here (around w) (c :: u ++ nl :: v) = Some (S (length u))) as Hm.
  { pose proof (match_around_cut (c :: u) v Hu) as Hm.
    by rewrite Hin in Hm. }
  change ((c :: u) ++ nl :: v) with (c :: (u ++ nl :: v)).
  rewrite scan_cons, Hm. f_equal.
  rewrite drop_app_length.
  apply (scan_around_skip v []); [|apply not_infix_nil].
  apply nl_free_nil.
Qed.

Lemma scan_around_last_skip : ∀ u,
  nl_free u → is_infix w u = false → sub_scan (around w) repl u = u.
Proof.
  induction u as [|c u IH]; intros Hu Hin.
  - by rewrite scan_nil, match_around, not_infix_nil.
  - rewrite scan_cons, match_around by done. rewrite Hin. f_equal.
    simpl in Hin. apply orb_false_elim in Hin as [_ Hin].
    apply IH; [|done]. by apply nl_free_cons in Hu as [_ ?].
Qed.

Lemma scan_around_last u :
  nl_free u → sub_scan (around w) repl u = replace_if_infix w repl u.
Proof.
  intros Hu. unfold replace_if_infix.
  destruct (is_infix w u) eqn:Hin; [|by apply scan_around_last_skip].
  destruct u as [|c u]; [by rewrite not_infix_nil in Hin|].
  rewrite scan_cons, match_around by done. rewrite Hin. simpl length.
  cbv iota. rewrite drop_all, scan_nil, match_around, not_infix_nil.
  - by rewrite app_nil_r.
  - apply nl_free_nil.
Qed.

Lemma scan_around_join : ∀ ls,
  ls ≠ [] → Forall nl_free ls →
  sub_scan (around w) repl (join_nl ls) = join_nl (replace_if_infix w repl <$> ls).
Proof.
  induction ls as [|l ls IH]; intros Hne Hls; [done|].
  apply Forall_cons in Hls as [Hl Hls].
  destruct ls as [|l' ls].
  - simpl. by apply scan_around_last.
  - change (join_nl (l :: l' :: ls)) with (l ++ nl :: join_nl (l' :: ls)).
    rewrite scan_around_line by done. rewrite IH by done. done.
Qed.
End around.

(** *** Lines *)
Lemma split_nl_ne s : split_nl s ≠ [].
Proof.
  destruct s as [|c s]; simpl; [done|].
  destruct (Ascii.eqb c nl); [done|]. by destruct (split_nl s).
Qed.

Lemma join_split_nl : ∀ s, join_nl (split_nl s) = s.
Proof.
  induction s as [|c s IH]; [done|]. simpl.
  destruct (Ascii.eqb_spec c nl) as [->|Hc].
  - pose proof (split_nl_ne s). destruct (split_nl s) eqn:E; [done|].
    simpl in *. by rewrite IH.
  - pose proof (split_nl_ne s). destruct (split_nl s) as [|l [|l' ls]] eqn:E;
      [done| |]; simpl in *; by rewrite <- IH.
Qed.

Lemma split_nl_free : ∀ s, Forall nl_free (split_nl s).
Proof.
  induction s as [|c s IH]; simpl.
  - constructor; [|done]. apply nl_free_nil.
  - destruct (Ascii.eqb_spec c nl) as [->|Hc].
    + constructor; [|done]. apply nl_free_nil.
    + pose proof (split_nl_ne s) as Hne.
      destruct (split_nl s) as [|l ls]; [done|].
      apply Forall_cons in IH as [Hl Hls]. constructor; [|done].
      by apply nl_free_cons.
Qed.

End ReFacts.

(** ** Facts about the sanitizer *)
Module PuppetFacts.
Import Re ReFacts Puppet.

Lemma chars_app (s t : string) : chars (s +:+ t) = chars s ++ chars t.
Proof. induction s as [|c s IH]; simpl; [done|]. by rewrite IH. Qed.

Lemma chars_inj (s t : string) : chars s = chars t → s = t.
Proof.
  intros H. rewrite <- (string_of_list_ascii_of_string s),
    <- (string_of_list_ascii_of_string t). by rewrite H.
Qed.

Lemma chars_sub p repl s :
  chars (Re.sub (Regex false p) repl s) = sub_scan p (chars repl) (chars s).
Proof.
  unfold Re.sub. by rewrite list_ascii_of_string_of_list_ascii, sub_list_unanchored.
Qed.

(** The patterns, in the shapes the matcher lemmas speak about. *)
Lemma info_re_shape : info_re = Regex false (info_head ++ [One (ChrI nl)]).
Proof. reflexivity. Qed.

Lemma notice_re_shape : notice_re = Regex false (notice_head ++ [One (ChrI nl)]).
Proof. reflexivity. Qed.

Lemma default_db_re_shape : default_db_re = Regex false (around (chars "default_db")).
Proof. reflexivity. Qed.

Lemma password_re_shape : password_re = Regex false (around (chars "password")).
Proof. reflexivity. Qed.

Lemma info_head_line_bound : line_bound info_head.
Proof. unfold line_bound, info_head. simpl. repeat constructor. Qed.

(** *** The first rule on a line that begins with [Info:] *)
Lemma match_info_line (l v : list ascii) :
  is_prefix_ci (chars "Info:") l = true → nl_free l →
  match_here (info_head ++ [One (ChrI nl)]) (l ++ nl :: v) = Some (length l + 1).
Proof.
  intros Hpre Hl. unfold info_head, lit_i. rewrite <- app_assoc.
  rewrite match_here_lit_i, (is_prefix_ci_app _ _ _ Hpre).
  apply is_prefix_ci_length in Hpre.
  rewrite drop_app_le by done.
  change (match_here ([Star Dot] ++ [One (ChrI nl)]))
    with (match_star Dot (match_here [One (ChrI nl)])).
  rewrite star_dot_then_nl; [|done|by apply nl_free_drop].
  simpl. f_equal. rewrite length_drop. simpl in Hpre. lia.
Qed.

Lemma scan_info_line (l v : list ascii) :
  is_prefix_ci (chars "Info:") l = true → nl_free l →
  sub_scan (info_head ++ [One (ChrI nl)]) [] (l ++ nl :: v)
  = sub_scan (info_head ++ [One (ChrI nl)]) [] v.
Proof.
  intros Hpre Hl. pose proof (match_info_line l v Hpre Hl) as Hm.
  destruct l as [|c l]; [done|].
  change ((c :: l) ++ nl :: v) with (c :: (l ++ nl :: v)) in *.
  rewrite scan_cons, Hm. simpl length.
  replace (S (length l) + 1) with (S (S (length l))) by lia.
  simpl app. f_equal.
  change (nl :: v) with ([nl] ++ v). rewrite app_assoc.
  rewrite drop_app_length'; [done|]. rewrite length_app. simpl. lia.
Qed.

Lemma at_line_start_chars pre :
  at_line_start pre → chars pre = [] ∨ ends_nl (chars pre).
Proof.
  intros [->|[p ->]]; [by left|right].
  exists (chars p). by rewrite chars_app.
Qed.

(** The first rule deletes a newline-terminated line that begins with
    [Info:], whatever stands before and after it. *)
Lemma remove_info_line (pre l post : string) :
  at_line_start pre → starts_with_ci "Info:" l = true → one_line l →
  remove_info (pre +:+ l +:+ NL +:+ post) = remove_info (pre +:+ post).
Proof.
  intros Hpre Hl Hone. apply chars_inj. unfold remove_info.
  rewrite info_re_shape, !chars_sub, !chars_app.
  apply at_line_start_chars in Hpre.
  rewrite !(scan_app_line_end _ _ _ _ info_head_line_bound (chars pre) Hpre).
  f_equal. by apply scan_info_line.
Qed.

(** Where [Info:] and the [--listen] notice do not occur, the two removal
    rules change nothing. *)
Lemma remove_info_absent (raw : string) :
  contains_ci "Info:" raw = false → remove_info raw = raw.
Proof.
  intros H. apply chars_inj. unfold remove_info, info_re.
  rewrite chars_sub. by apply scan_lit_i_absent.
Qed.

Lemma remove_notice_absent (raw : string) :
  contains_ci "Notice: Ignoring --listen on onetime run" raw = false →
  remove_notice raw = raw.
Proof.
  intros H. apply chars_inj. unfold remove_notice, notice_re.
  rewrite chars_sub. by apply scan_lit_i_absent.
Qed.

(** None of the four patterns matches the empty string. *)
Lemma patterns_match_nonempty r s n :
  r ∈ [info_re; notice_re; default_db_re; password_re] →
  match_here (items r) s = Some n → 0 < n.
Proof.
  intros Hr Hm. apply match_here_min in Hm.
  repeat (apply elem_of_cons in Hr as [->|Hr]); [..|by apply elem_of_nil in Hr];
    vm_compute in Hm; lia.
Qed.

(** *** The two redaction rules, line by line *)
Lemma marker_one_line : nl_free (chars marker).
Proof. by_evaluation. Qed.

Lemma redact_lines (t : list ascii) :
  sub_scan (around (chars "password")) (chars marker)
    (sub_scan (around (chars "default_db")) (chars marker) t)
  = join_nl
      ((λ l, if is_infix (chars "default_db") l || is_infix (chars "password") l
             then chars marker else l) <$> split_nl t).
Proof.
  rewrite <- (join_split_nl t) at 1.
  rewrite scan_around_join;
    [|done|by_evaluation|apply split_nl_ne
     |apply split_nl_free].
  rewrite scan_around_join; [|done|by_evaluation| |].
  - rewrite <- list_fmap_compose. f_equal. apply list_fmap_ext.
    intros _ l _. unfold compose, replace_if_infix.
    destruct (is_infix (chars "default_db") l); simpl; [|done].
    by vm_compute.
  - pose proof (split_nl_ne t). by destruct (split_nl t).
  - apply Forall_fmap, Forall_impl with (P := nl_free); [apply split_nl_free|].
    intros l Hl. simpl. unfold replace_if_infix.
    destruct (is_infix _ l); [apply marker_one_line|done].
Qed.

End PuppetFacts.

(** ** Facts about the sequence matcher *)
Module DifflibFacts.
Import Difflib.

Section bounds.
Variables a b : list string.

Lemma j2lenget_pred_below alo hi j2len j :
  runs_below alo hi j2len → j2lenget_pred j2len j + alo ≤ alo `max` hi.
Proof.
  intros H. destruct j as [|j]; simpl; [lia|].
  destruct (j2len !! j) as [v|] eqn:E; simpl; [|lia].
  apply H in E. lia.
Qed.

Lemma scan_row_in_rows alo blo bhi i j2len :
  alo ≤ i → runs_below alo i j2len →
  ∀ js best nj,
    in_rows alo (S i) best → runs_below alo (S i) nj →
    in_rows alo (S i) (scan_row blo bhi i j2len js best nj).1
    ∧ runs_below alo (S i) (scan_row blo bhi i j2len js best nj).2.
Proof.
  intros Hi Hj. induction js as [|j js IH]; intros best nj Hb Hn; [done|].
  simpl. destruct (decide (j < blo)); [by apply IH|].
  destruct (decide (bhi ≤ j)); [done|].
  pose proof (j2lenget_pred_below alo i j2len j Hj) as Hk.
  apply IH.
  - case_decide; [|done]. split; simpl; lia.
  - intros j' v. rewrite lookup_insert. case_decide.
    + intros [= <-]. lia.
    + apply Hn.
Qed.

Lemma scan_in_rows alo blo bhi n :
  let st := foldl (scan_step a b blo bhi) (mkMatch alo blo 0, ∅) (seq alo n) in
  in_rows alo (alo + n) st.1 ∧ runs_below alo (alo + n) st.2.
Proof.
  induction n as [|n IH]; cbv zeta in *.
  - split; [split; simpl; lia|]. intros j v. simpl. by rewrite lookup_empty.
  - rewrite seq_S, foldl_app. destruct IH as [Hb Hr].
    set (st := foldl (scan_step a b blo bhi) (mkMatch alo blo 0, ∅) (seq alo n)) in *.
    simpl foldl. unfold scan_step.
    replace (alo + S n) with (S (alo + n)) by lia.
    apply scan_row_in_rows; [lia|done| |].
    + destruct Hb. split; lia.
    + intros j v. by rewrite lookup_empty.
Qed.

Lemma scan_bounds alo ahi blo bhi :
  alo ≤ ahi → in_rows alo ahi (scan a b alo ahi blo bhi).
Proof.
  intros H. unfold scan.
  pose proof (scan_in_rows alo blo bhi (ahi - alo)) as [Hb _].
  by replace (alo + (ahi - alo)) with ahi in Hb by lia.
Qed.

Lemma extend_back_in_rows want alo blo ahi fuel : ∀ m,
  in_rows alo ahi m → in_rows alo ahi (extend_back a b fuel want alo blo m).
Proof.
  induction fuel as [|fuel IH]; intros m Hm; [done|]. simpl.
  destruct (back_cond a b want alo blo m) eqn:E; [|done].
  apply IH. unfold back_cond in E.
  repeat (apply andb_prop in E as [E ?]). apply bool_decide_eq_true in E.
  destruct Hm. split; simpl; lia.
Qed.

Lemma extend_fwd_in_rows want alo ahi bhi fuel : ∀ m,
  in_rows alo ahi m → in_rows alo ahi (extend_fwd a b fuel want ahi bhi m).
Proof.
  induction fuel as [|fuel IH]; intros m Hm; [done|]. simpl.
  destruct (fwd_cond a b want ahi bhi m) eqn:E; [|done].
  apply IH. unfold fwd_cond in E.
  repeat (apply andb_prop in E as [E ?]). apply bool_decide_eq_true in E.
  destruct Hm. split; simpl; lia.
Qed.

Lemma find_longest_match_bounds alo ahi blo bhi :
  alo ≤ ahi → in_rows alo ahi (find_longest_match a b alo ahi blo bhi).
Proof.
  intros H. unfold find_longest_match, extend.
  do 2 (apply extend_fwd_in_rows, extend_back_in_rows).
  by apply scan_bounds.
Qed.

(** The fuel of the two extension loops is never what stops them. *)
Lemma extend_back_exit want alo blo fuel : ∀ m,
  m_a m ≤ fuel →
  back_cond a b want alo blo (extend_back a b fuel want alo blo m) = false.
Proof.
  induction fuel as [|fuel IH]; intros m Hm; simpl.
  - unfold back_cond. rewrite bool_decide_eq_false_2; [done|lia].
  - destruct (back_cond a b want alo blo m) eqn:E; [|done].
    apply IH. simpl. lia.
Qed.

Lemma extend_fwd_exit want ahi bhi fuel : ∀ m,
  ahi - (m_a m + m_size m) ≤ fuel →
  fwd_cond a b want ahi bhi (extend_fwd a b fuel want ahi bhi m) = false.
Proof.
  induction fuel as [|fuel IH]; intros m Hm; simpl.
  - unfold fwd_cond. rewrite bool_decide_eq_false_2; [done|lia].
  - destruct (fwd_cond a b want ahi bhi m) eqn:E; [|done].
    apply IH. simpl. lia.
Qed.

(** *** The work list of [get_matching_blocks] empties *)
Lemma queue_weight_cons alo ahi blo bhi queue :
  queue_weight ((alo, ahi, blo, bhi) :: queue)
  = 2 * (ahi - alo) + 1 + queue_weight queue.
Proof. done. Qed.

Lemma blocks_loop_total fuel : ∀ queue blocks,
  Forall region_ok queue → queue_weight queue ≤ fuel →
  is_Some (blocks_loop a b fuel queue blocks).
Proof.
  induction fuel as [|fuel IH]; intros queue blocks Hok Hw.
  - destruct queue as [|[[[alo ahi] blo] bhi] queue]; [by eexists|].
    rewrite queue_weight_cons in Hw. lia.
  - destruct queue as [|[[[alo ahi] blo] bhi] queue]; [by eexists|].
    apply Forall_cons in Hok as [Hr Hok]. simpl in Hr.
    rewrite queue_weight_cons in Hw.
    pose proof (find_longest_match_bounds alo ahi blo bhi Hr) as [Hlo Hhi].
    simpl. destruct (find_longest_match a b alo ahi blo bhi) as [i j k].
    simpl in Hlo, Hhi.
    destruct (decide (k = 0)); [apply IH; [done|lia]|].
    apply IH.
    + unfold push_if. repeat case_bool_decide; repeat constructor;
        simpl; try done; lia.
    + unfold push_if.
      repeat case_bool_decide; rewrite ?queue_weight_cons; lia.
Qed.

Lemma raw_blocks_total : is_Some (raw_blocks a b).
Proof.
  apply blocks_loop_total.
  - repeat constructor. simpl. lia.
  - unfold queue_weight, blocks_fuel. simpl. lia.
Qed.
End bounds.

(** *** The dictionary [b2j] *)

Lemma enumerate_snoc l y : enumerate (l ++ [y]) = enumerate l ++ [(length l, y)].
Proof. unfold enumerate. rewrite imap_app. simpl. by rewrite Nat.add_0_r. Qed.

Lemma positions_snoc x l y :
  positions x (l ++ [y])
  = positions x l ++ (if decide (y = x) then [length l] else []).
Proof.
  unfold positions. rewrite enumerate_snoc, filter_app, fmap_app. f_equal.
  rewrite filter_cons. simpl. by case_decide.
Qed.

Lemma elem_of_positions x l j : j ∈ positions x l ↔ l !! j = Some x.
Proof.
  unfold positions. rewrite list_elem_of_fmap. split.
  - intros ([j' y] & -> & H). apply list_elem_of_filter in H as [Hy Hin].
    simpl in *. subst y. unfold enumerate in Hin.
    apply elem_of_lookup_imap in Hin as (i & z & Heq & Hl). by simplify_eq.
  - intros H. exists (j, x). split; [done|].
    apply list_elem_of_filter. split; [done|].
    unfold enumerate. apply elem_of_lookup_imap. eauto.
Qed.

Lemma positions_sorted x l : StronglySorted lt (positions x l).
Proof.
  induction l as [|y l IH] using rev_ind; [constructor|].
  rewrite positions_snoc. apply StronglySorted_app_2; [|done|].
  - intros j1 j2 H1%elem_of_positions%lookup_lt_Some H2.
    case_decide; [|by apply elem_of_nil in H2].
    apply list_elem_of_singleton in H2. by subst.
  - case_decide; repeat constructor.
Qed.

Lemma chain_all_lookup l x :
  foldl chain_b_step ∅ (enumerate l) !! x
  = if decide (positions x l = []) then None else Some (positions x l).
Proof.
  induction l as [|y l IH] using rev_ind; [done|].
  rewrite enumerate_snoc, foldl_app, positions_snoc. simpl.
  unfold chain_b_step at 1. simpl. rewrite lookup_insert.
  destruct (decide (y = x)) as [->|Hne].
  - rewrite IH.
    rewrite (decide_False (P := positions x l ++ [length l] = []))
      by (by destruct (positions x l)).
    by destruct (decide (positions x l = [])) as [->|].
  - by rewrite IH, app_nil_r.
Qed.

Lemma chain_b_lookup_Some l x js :
  chain_b l !! x = Some js → js = positions x l ∧ js ≠ [].
Proof.
  unfold chain_b. intros H.
  assert (foldl chain_b_step ∅ (enumerate l) !! x = Some js) as Hall.
  { destruct (decide (200 ≤ length l)); [|done].
    by apply map_lookup_filter_Some in H as [? _]. }
  rewrite chain_all_lookup in Hall. case_decide; [done|]. by simplify_eq.
Qed.

(** *** A sequence compared with itself *)
Section same.
Variable s : list string.

Lemma run_eq i : run s i = if nonpop s i then S (pred_run s i) else 0.
Proof. by destruct i. Qed.

Lemma j2lenget_pred_le i j2len j :
  row_pre s i j2len →
  j2lenget_pred j2len j ≤ pred_run s j ∧ j2lenget_pred j2len j ≤ pred_run s i.
Proof.
  intros [H _]. destruct j as [|j]; simpl; [lia|].
  destruct (j2len !! j) as [v|] eqn:E; simpl; [|lia].
  apply H in E. lia.
Qed.

Lemma scan_row_same i j2len :
  nonpop s i = true → row_pre s i j2len →
  ∀ js best nj,
    StronglySorted lt js →
    (∀ j, j ∈ js → j < length s ∧ nonpop s j = true) →
    inner s i js best nj →
    inner s i [] (scan_row 0 (length s) i j2len js best nj).1
               (scan_row 0 (length s) i j2len js best nj).2.
Proof.
  intros Hi Hpre. induction js as [|j js IH]; intros best nj Hs Hjs Hin; [done|].
  apply StronglySorted_cons in Hs as [Hlt Hs].
  destruct (Hjs j) as [Hj Hnj]; [by left|].
  simpl. rewrite (decide_False (P := length s ≤ j)) by lia.
  pose proof (j2lenget_pred_le i j2len j Hpre) as [Hkj Hki].
  pose proof (run_eq j) as Hrj. rewrite Hnj in Hrj.
  pose proof (run_eq i) as Hri. rewrite Hi in Hri.
  destruct Hin as (Hd & Hb & Hc & Hn).
  assert (Hn' : ∀ j' v, <[j:=j2lenget_pred j2len j + 1]> nj !! j' = Some v
                         → v ≤ run s j' ∧ v ≤ run s i).
  { intros j' v. rewrite lookup_insert. case_decide; [|by apply Hn].
    intros [= <-]. subst j'. lia. }
  apply IH; [done|intros j' Hj'; apply Hjs; by right|].
  destruct (lt_eq_lt_dec j i) as [[Hji|Hji]|Hji].
  - (* a column left of the diagonal *)
    rewrite decide_False by (specialize (Hb j Hji); lia).
    split_and!; [done|done| |done].
    destruct Hc as [Hc|[Hc1 Hc2]].
    + left. apply elem_of_cons in Hc as [->|Hc]; [lia|done].
    + right. split; [done|]. rewrite lookup_insert_ne by lia. done.
  - (* the diagonal *)
    subst j. destruct Hpre as [_ Hdiag]. rewrite Hdiag in *.
    split_and!.
    + case_decide; [done|done].
    + intros i' Hi'. specialize (Hb i' Hi'). case_decide; simpl; lia.
    + right. split; [case_decide; simpl; lia|].
      rewrite lookup_insert_eq. f_equal. lia.
    + done.
  - (* a column right of the diagonal *)
    assert (run s i ≤ m_size best ∧ nj !! i = Some (run s i)) as [Hc1 Hc2].
    { destruct Hc as [Hc|Hc]; [|done].
      apply elem_of_cons in Hc as [->|Hc]; [lia|].
      rewrite Forall_forall in Hlt. specialize (Hlt i Hc). lia. }
    rewrite decide_False by lia.
    split_and!; [done|done| |done].
    right. split; [done|]. rewrite lookup_insert_ne by lia. done.
Qed.

Lemma scan_step_same i st :
  i < length s → outer s i st → outer s (S i) (scan_step s s 0 (length s) st i).
Proof.
  intros Hi (Hd & Hb & Hpre). unfold scan_step.
  pose proof (run_eq i) as Hri. unfold nonpop in Hri.
  destruct (s !! i) as [x|] eqn:Hx; [|by apply lookup_ge_None in Hx; lia].
  simpl in *. destruct (chain_b s !! x) as [js|] eqn:Hjs; simpl.
  - rewrite bool_decide_eq_true_2 in Hri by by eexists.
    apply chain_b_lookup_Some in Hjs as Hpos. destruct Hpos as [-> Hne].
    assert (Hnp : ∀ j, j ∈ positions x s → j < length s ∧ nonpop s j = true).
    { intros j Hj%elem_of_positions. split; [by eapply lookup_lt_Some|].
      unfold nonpop. rewrite Hj. simpl. rewrite Hjs.
      by rewrite bool_decide_eq_true_2 by by eexists. }
    destruct (scan_row_same i st.2 (proj2 (Hnp i ltac:(by apply elem_of_positions)))
                Hpre (positions x s) st.1 ∅) as (Hd' & Hb' & Hc' & Hn').
    + apply positions_sorted.
    + done.
    + split_and!; [done|done| |].
      * left. by apply elem_of_positions.
      * intros j v. by rewrite lookup_empty.
    + destruct Hc' as [Hc'|[Hc1 Hc2]]; [by apply elem_of_nil in Hc'|].
      split_and!; [done| |].
      * intros i' Hi'. destruct (decide (i' = i)) as [->|]; [done|].
        apply Hb'. lia.
      * split; [done|]. simpl. by rewrite Hc2.
  - rewrite bool_decide_eq_false_2 in Hri by (by intros [??]).
    split_and!; [done| |].
    + intros i' Hi'. destruct (decide (i' = i)) as [->|]; [lia|].
      apply Hb. lia.
    + split; [intros j v; simpl; by rewrite lookup_empty|].
      simpl. by rewrite lookup_empty.
Qed.

Lemma scan_same_outer k :
  k ≤ length s →
  outer s k (foldl (scan_step s s 0 (length s)) (mkMatch 0 0 0, ∅) (seq 0 k)).
Proof.
  induction k as [|k IH]; intros Hk.
  - split_and!; [done|intros; lia|].
    split; [intros j v; simpl; by rewrite lookup_empty|done].
  - rewrite seq_S, foldl_app. simpl. apply scan_step_same; [lia|].
    apply IH. lia.
Qed.

Lemma scan_same_diag :
  m_a (scan s s 0 (length s) 0 (length s))
  = m_b (scan s s 0 (length s) 0 (length s)).
Proof.
  unfold scan. rewrite Nat.sub_0_r.
  by destruct (scan_same_outer (length s)) as [? _].
Qed.

Lemma junk_is_false j : j < length s → junk_is s false j = true.
Proof.
  intros Hj. unfold junk_is.
  destruct (s !! j) eqn:E; [done|]. apply lookup_ge_None in E. lia.
Qed.

Lemma same_elt_diag j : j < length s → same_elt s s j j = true.
Proof.
  intros Hj. unfold same_elt.
  destruct (s !! j) eqn:E; [by apply bool_decide_eq_true|].
  apply lookup_ge_None in E. lia.
Qed.

Lemma extend_back_diag fuel : ∀ d k,
  d ≤ fuel → d ≤ length s →
  extend_back s s fuel false 0 0 (mkMatch d d k) = mkMatch 0 0 (k + d).
Proof.
  induction fuel as [|fuel IH]; intros d k Hf Hd.
  - assert (d = 0) as -> by lia. simpl. f_equal. lia.
  - simpl. unfold back_cond. simpl. destruct d as [|d].
    + simpl. f_equal. lia.
    + rewrite !bool_decide_eq_true_2 by lia. simpl. rewrite Nat.sub_0_r.
      rewrite junk_is_false, same_elt_diag by lia. simpl.
      rewrite IH by lia. f_equal. lia.
Qed.

Lemma extend_fwd_diag fuel : ∀ k,
  k + fuel ≤ length s →
  extend_fwd s s fuel false (length s) (length s) (mkMatch 0 0 k)
  = mkMatch 0 0 (k + fuel).
Proof.
  induction fuel as [|fuel IH]; intros k Hk.
  - simpl. f_equal. lia.
  - simpl. unfold fwd_cond. simpl.
    rewrite !bool_decide_eq_true_2 by lia. simpl.
    rewrite junk_is_false, same_elt_diag by lia. simpl.
    rewrite IH by lia. f_equal. lia.
Qed.

Lemma find_longest_match_same :
  find_longest_match s s 0 (length s) 0 (length s) = mkMatch 0 0 (length s).
Proof.
  unfold find_longest_match.
  pose proof (scan_bounds s s 0 (length s) 0 (length s) ltac:(lia)) as [_ Hhi].
  pose proof scan_same_diag as Hd.
  destruct (scan s s 0 (length s) 0 (length s)) as [d d' k]. simpl in *. subst d'.
  unfold extend at 2. simpl.
  rewrite extend_back_diag by lia. simpl.
  rewrite extend_fwd_diag by lia.
  replace (k + d + (length s - (k + d))) with (length s) by lia.
  unfold extend. simpl. by rewrite Nat.sub_diag.
Qed.

Lemma blocks_loop_nil a b fuel blocks : blocks_loop a b fuel [] blocks = Some blocks.
Proof. by destruct fuel. Qed.

Lemma raw_blocks_same :
  raw_blocks s s
  = Some (if decide (length s = 0) then [] else [mkMatch 0 0 (length s)]).
Proof.
  unfold raw_blocks, blocks_fuel.
  replace (2 * length s + 1) with (S (2 * length s)) by lia.
  simpl blocks_loop. rewrite find_longest_match_same.
  destruct (decide (length s = 0)) as [Hn|Hn].
  - by rewrite blocks_loop_nil.
  - rewrite !bool_decide_eq_false_2 by lia. simpl.
    by rewrite blocks_loop_nil.
Qed.

Lemma get_matching_blocks_same :
  get_matching_blocks s s
  = if decide (length s = 0) then [mkMatch 0 0 0]
    else [mkMatch 0 0 (length s); mkMatch (length s) (length s) 0].
Proof.
  unfold get_matching_blocks. rewrite raw_blocks_same.
  destruct (decide (length s = 0)) as [Hn|Hn]; simpl.
  - unfold collapse. simpl. by rewrite Hn.
  - unfold collapse. simpl. by rewrite decide_False by done.
Qed.

Lemma get_opcodes_same :
  get_opcodes s s
  = if decide (length s = 0) then [] else [Op Equal 0 (length s) 0 (length s)].
Proof.
  unfold get_opcodes. rewrite get_matching_blocks_same.
  destruct (decide (length s = 0)) as [Hn|Hn]; simpl; [done|].
  rewrite decide_False by done. simpl.
  by rewrite ?bool_decide_eq_false_2 by lia.
Qed.

Lemma get_grouped_opcodes_same : get_grouped_opcodes s s 0 = [].
Proof.
  unfold get_grouped_opcodes. rewrite get_opcodes_same.
  destruct (decide (length s = 0)) as [Hn|Hn]; [done|].
  unfold fix_first, fix_last. simpl.
  rewrite Nat.sub_0_r, Nat.max_r, Nat.add_0_r, Nat.min_id by lia. simpl.
  rewrite Nat.sub_diag. by rewrite bool_decide_eq_false_2 by lia.
Qed.

Lemma unified_diff_same lineterm : unified_diff s s 0 lineterm = [].
Proof. unfold unified_diff. by rewrite get_grouped_opcodes_same. Qed.

End same.

End DifflibFacts.

(** ** Facts about the report *)
Module RpmFacts.
Import Difflib Rpmdatabase PuppetFacts ReFacts.

Lemma append_cons c (s t : string) : String c s +:+ t = String c (s +:+ t).
Proof. done. Qed.

Lemma append_assoc (s t u : string) : (s +:+ t) +:+ u = s +:+ t +:+ u.
Proof. induction s as [|c s IH]; [done|]. by rewrite !append_cons, IH. Qed.

Lemma append_nil_r (s : string) : s +:+ "" = s.
Proof. induction s as [|c s IH]; [done|]. by rewrite append_cons, IH. Qed.

(** *** The shape of the lines [unified_diff] yields *)
Lemma elem_of_concat (x : string) (ls : list (list string)) :
  x ∈ concat ls → ∃ l, l ∈ ls ∧ x ∈ l.
Proof.
  rewrite list_elem_of_In, in_concat. intros (l & Hl & Hx).
  exists l. by rewrite !list_elem_of_In.
Qed.

Lemma elem_of_slice (x : string) l i1 i2 : x ∈ slice l i1 i2 → x ∈ l.
Proof.
  unfold slice. intros H. by apply subseteq_take, subseteq_drop in H.
Qed.

Lemma opcode_lines_shape a b c l : l ∈ opcode_lines a b c → diff_line a b l.
Proof.
  destruct c as [[] i1 i2 j1 j2]; simpl;
    rewrite ?elem_of_app, !list_elem_of_fmap;
    intros H; do 3 right;
    repeat match goal with
      | H : _ ∨ _ |- _ => destruct H
      | H : ∃ _, _ |- _ => destruct H as (? & -> & ?%elem_of_slice)
      end; eauto 10.
Qed.

Lemma group_lines_shape a b g l : l ∈ group_lines a b "" g → diff_line a b l.
Proof.
  unfold group_lines. rewrite elem_of_cons. intros [->|H].
  - right. right. left. by eexists.
  - apply elem_of_concat in H as (ls & Hls & Hl).
    apply list_elem_of_fmap in Hls as (c & -> & _).
    by eapply opcode_lines_shape.
Qed.

Lemma unified_diff_shape a b n l : l ∈ unified_diff a b n "" → diff_line a b l.
Proof.
  unfold unified_diff.
  destruct (get_grouped_opcodes a b n) as [|g gs]; [by rewrite elem_of_nil|].
  rewrite !elem_of_cons. intros [->|[->|H]].
  - by left.
  - right. by left.
  - apply elem_of_concat in H as (ls & Hls & Hl).
    apply list_elem_of_fmap in Hls as (g' & -> & _).
    by eapply group_lines_shape.
Qed.

(** *** The line filter of [formatdiff] *)
Lemma star_any_some a : ∀ s, is_Some (Re.match_star a (Re.match_here []) s).
Proof.
  induction s as [|c s [n Hn]]; [by eexists|].
  rewrite match_star_cons, Hn. destruct (Re.atom_matches a c); by eexists.
Qed.

Lemma found_spec line :
  found line =
    match line with
    | String c1 (String c2 _) => is_sign c1 && is_letter c2
    | _ => false
    end.
Proof.
  unfold found, Re.search, Re.search_list, line_re. simpl Re.anchored. cbv iota.
  destruct line as [|c1 [|c2 rest]].
  - done.
  - simpl. destruct (_ || _); done.
  - unfold Re.items. cbn [list_ascii_of_string Re.match_here].
    replace (Re.atom_matches _ c1) with (is_sign c1)
      by (unfold is_sign; simpl; by rewrite !orb_false_r, orb_assoc).
    replace (Re.atom_matches _ c2) with (is_letter c2)
      by (unfold is_letter; simpl; by rewrite !orb_false_r).
    destruct (is_sign c1), (is_letter c2); simpl; try done.
    destruct (star_any_some Re.Dot (list_ascii_of_string rest)) as [n Hn].
    change (Re.match_here []) with (λ _ : list ascii, Some 0) in Hn.
    by rewrite Hn.
Qed.

(** *** The body is the kept lines, each followed by a newline *)
Lemma concat_lines_app ls ms :
  concat_lines (ls ++ ms) = concat_lines ls +:+ concat_lines ms.
Proof.
  induction ls as [|l ls IH]; simpl; [done|].
  by rewrite IH, !append_assoc.
Qed.

Lemma body_of_kept rpmdiff : body_of rpmdiff = concat_lines (kept rpmdiff).
Proof.
  unfold body_of, kept.
  enough (∀ text, foldl (λ text line, if found line then text +:+ line +:+ NL else text)
                    text rpmdiff
                  = text +:+ concat_lines (filter (λ l, found l) rpmdiff)) as H
    by apply (H "").
  induction rpmdiff as [|l ls IH]; intros text; simpl.
  - by rewrite append_nil_r.
  - rewrite IH, filter_cons. destruct (found l); simpl; [|done].
    by rewrite !append_assoc.
Qed.

End RpmFacts.

Module ReportFacts.
Import Difflib Rpmdatabase PuppetFacts ReFacts RpmFacts.

Lemma change_line_not_control l : change_line l → ¬ control_line l.
Proof.
  intros (c1 & c2 & rest & -> & Hc1 & Hc2) [H|[H|[r H]]]; simplify_eq/=.
  destruct Hc1; simplify_eq.
Qed.

Lemma kept_diff_line a b l :
  diff_line a b l → found l = true →
  change_line l
  ∧ ∃ c x, l = String c x ∧ (c = "+" ∨ c = "-")%char ∧ (x ∈ a ∨ x ∈ b).
Proof.
  intros Hl Hf. rewrite found_spec in Hf.
  destruct Hl as [Hl|[Hl|[[r Hl]|(c & x & Hl & Hc & Hx)]]]; subst l.
  - done.
  - done.
  - by destruct r.
  - destruct x as [|c2 rest]; [done|].
    apply andb_prop in Hf as [Hs Hl].
    destruct Hc as [->|Hc]; [done|].
    assert (c = "+" ∨ c = "-")%char as Hsign by (destruct Hc; auto).
    split; [exists c, c2, rest|exists c, (String c2 rest)]; auto.
Qed.

Lemma split_nl_line l rest :
  nl_free l → split_nl (l ++ nl :: rest) = l :: split_nl rest.
Proof.
  induction l as [|c l IH]; intros Hl; [done|].
  apply nl_free_cons in Hl as [Hc Hl]. simpl.
  destruct (Ascii.eqb_spec c nl) as [|_]; [done|]. by rewrite IH.
Qed.

Lemma lines_concat_lines ls :
  Forall one_line ls → lines (concat_lines ls) = ls ++ [""].
Proof.
  induction 1 as [|l ls Hl Hls IH]; [done|].
  simpl. unfold lines in *. rewrite !chars_app. simpl.
  rewrite split_nl_line by done. rewrite fmap_cons, IH.
  by rewrite string_of_list_ascii_of_string.
Qed.

Lemma kept_one_line a b n :
  Forall one_line a → Forall one_line b →
  Forall one_line (kept (unified_diff a b n "")).
Proof.
  intros Ha Hb. apply Forall_forall. intros l Hl.
  apply list_elem_of_filter in Hl as [Hf Hl]. apply Is_true_true in Hf.
  apply unified_diff_shape in Hl.
  destruct (kept_diff_line _ _ _ Hl Hf) as [_ (c & x & -> & Hc & Hx)].
  unfold one_line. simpl. apply nl_free_cons. split.
  - by destruct Hc as [->| ->].
  - rewrite Forall_forall in Ha, Hb. destruct Hx; [by apply Ha|by apply Hb].
Qed.

Lemma kept_change_lines a b n :
  Forall change_line (kept (unified_diff a b n "")).
Proof.
  apply Forall_forall. intros l Hl.
  apply list_elem_of_filter in Hl as [Hf Hl]. apply Is_true_true in Hf.
  apply unified_diff_shape in Hl.
  by destruct (kept_diff_line _ _ _ Hl Hf) as [? _].
Qed.

Lemma rpm_snoc acc mi :
  foldl (λ rpmlist h, rpmlist ++ [nvr h]) acc mi = acc ++ (nvr <$> mi).
Proof.
  revert acc. induction mi as [|h mi IH]; intros acc; simpl.
  - by rewrite app_nil_r.
  - by rewrite IH, <- app_assoc.
Qed.

End ReportFacts.

Module SanitizeFacts.
Import Re ReFacts Puppet PuppetFacts.

Lemma split_join_nl : ∀ ls,
  ls ≠ [] → Forall nl_free ls → split_nl (join_nl ls) = ls.
Proof.
  induction ls as [|l ls IH]; intros Hne Hls; [done|].
  apply Forall_cons in Hls as [Hl Hls].
  destruct ls as [|l' ls].
  - simpl. clear IH Hne Hls. induction l as [|c l IH]; [done|].
    apply nl_free_cons in Hl as [Hc Hl]. simpl.
    destruct (Ascii.eqb_spec c nl) as [|_]; [done|]. by rewrite IH.
  - change (join_nl (l :: l' :: ls)) with (l ++ nl :: join_nl (l' :: ls)).
    rewrite ReportFacts.split_nl_line by done. by rewrite IH.
Qed.

Lemma chars_redact_line (l : list ascii) :
  chars (redact_line (str l))
  = if is_infix (chars "default_db") l || is_infix (chars "password") l
    then chars marker else l.
Proof.
  unfold redact_line, contains. rewrite !list_ascii_of_string_of_list_ascii.
  destruct (_ || _); [done|]. by rewrite list_ascii_of_string_of_list_ascii.
Qed.

Lemma redact_stage (t : string) :
  chars (redact_password (redact_default_db t))
  = join_nl (chars <$> (redact_line <$> lines t)).
Proof.
  unfold redact_password, redact_default_db.
  rewrite password_re_shape, default_db_re_shape, !chars_sub, redact_lines.
  unfold lines. rewrite <- !list_fmap_compose. f_equal.
  apply list_fmap_ext. intros _ l _. simpl. by rewrite chars_redact_line.
Qed.

Lemma redact_line_one_line l : one_line l → one_line (redact_line l).
Proof.
  intros Hl. unfold redact_line. destruct (_ || _); [|done].
  apply marker_one_line.
Qed.

Lemma lines_one_line t : Forall one_line (lines t).
Proof.
  unfold lines. apply Forall_fmap, Forall_impl with (P := nl_free);
    [apply split_nl_free|].
  intros l Hl. unfold one_line. simpl.
  by rewrite list_ascii_of_string_of_list_ascii.
Qed.

End SanitizeFacts.

(** * The properties of the specification *)

Import Puppet Rpmdatabase.

(** ** Sanitizer *)

(** C1, as the code has it. The two redaction rules replace, in the text left
    by the two removal rules, every line that contains [default_db] or
    [password] (compared case-sensitively) by the marker; every other line
    of that text, and the division into lines, stay as they are. *)
Theorem sanitize_redacts_lines (raw : string) :
  sanitize raw = unlines (redact_line <$> lines (remove_notice (remove_info raw)))
  ∧ lines (sanitize raw) = redact_line <$> lines (remove_notice (remove_info raw))
  ∧ (contains_ci "Info:" raw = false →
     contains_ci "Notice: Ignoring --listen on onetime run" raw = false →
     lines (sanitize raw) = redact_line <$> lines raw).
Proof.
  set (t := remove_notice (remove_info raw)).
  assert (H : chars (sanitize raw)
              = join_nl (chars <$> (redact_line <$> lines t))).
  { unfold sanitize. fold t. apply SanitizeFacts.redact_stage. }
  assert (Hl : lines (sanitize raw) = redact_line <$> lines t); [|split_and!].
  2:{ apply PuppetFacts.chars_inj. rewrite H. unfold unlines.
      by rewrite list_ascii_of_string_of_list_ascii. }
  2:{ done. }
  2:{ intros Hi Hn. rewrite Hl. unfold t.
      by rewrite (PuppetFacts.remove_info_absent raw Hi),
        (PuppetFacts.remove_notice_absent raw Hn). }
  - unfold lines at 1. rewrite H, SanitizeFacts.split_join_nl.
    + rewrite <- list_fmap_compose. rewrite <- (list_fmap_id (redact_line <$> lines t)) at 2.
      apply list_fmap_ext. intros _ l _. simpl.
      apply string_of_list_ascii_of_string.
    + unfold lines. pose proof (ReFacts.split_nl_ne (chars t)).
      by destruct (split_nl (chars t)).
    + apply Forall_fmap, Forall_fmap.
      eapply Forall_impl; [apply SanitizeFacts.lines_one_line|].
      intros l Hl. simpl. by apply SanitizeFacts.redact_line_one_line.
Qed.

Lemma sanitize_redacts_lines_witness :
  contains_ci "Info:" ("Notice: set password to hunter2" +:+ NL +:+ "Notice: ok" +:+ NL)
    = false
  ∧ contains_ci "Notice: Ignoring --listen on onetime run"
      ("Notice: set password to hunter2" +:+ NL +:+ "Notice: ok" +:+ NL) = false
  ∧ lines (sanitize ("Notice: set password to hunter2" +:+ NL +:+ "Notice: ok" +:+ NL))
    = redact_line
        <$> lines ("Notice: set password to hunter2" +:+ NL +:+ "Notice: ok" +:+ NL).
Proof.
  assert (H1 : contains_ci "Info:"
                 ("Notice: set password to hunter2" +:+ NL +:+ "Notice: ok" +:+ NL)
               = false) by reflexivity.
  assert (H2 : contains_ci "Notice: Ignoring --listen on onetime run"
                 ("Notice: set password to hunter2" +:+ NL +:+ "Notice: ok" +:+ NL)
               = false) by reflexivity.
  split_and!; [exact H1|exact H2|].
  exact (proj2 (proj2 (sanitize_redacts_lines _)) H1 H2).
Defined.

(** C1 fails as stated: a line with [Password] in another case is kept. *)
Lemma sanitize_keeps_capitalised_password :
  lines ("Notice: applied" +:+ NL +:+ "Password: hunter2" +:+ NL)
    = ["Notice: applied"; "Password: hunter2"; ""]
  ∧ contains_ci "password" "Password: hunter2" = true
  ∧ lines (sanitize ("Notice: applied" +:+ NL +:+ "Password: hunter2" +:+ NL))
    = ["Notice: applied"; "Password: hunter2"; ""].
Proof. by vm_compute. Qed.

(** C3 fails on the code: an [Info:] in the middle of a line is cut out up to
    and including the newline, and what is left of the line is joined with
    the next line. *)
Theorem sanitize_joins_lines_at_inner_info :
  lines ("Notice: /Exec[x]/returns: Info: starting" +:+ NL +:+ "Notice: Finished" +:+ NL)
    = ["Notice: /Exec[x]/returns: Info: starting"; "Notice: Finished"; ""]
  ∧ lines (sanitize ("Notice: /Exec[x]/returns: Info: starting" +:+ NL
                     +:+ "Notice: Finished" +:+ NL))
    = ["Notice: /Exec[x]/returns: Notice: Finished"; ""].
Proof. by vm_compute. Qed.

(** C4, as the code has it. A newline-terminated line that begins with
    [Info:] (in any case) is removed together with its newline: the result is
    that of the input without the line. *)
Theorem sanitize_removes_terminated_info_line (pre l post : string) :
  at_line_start pre → starts_with_ci "Info:" l = true → one_line l →
  sanitize (pre +:+ l +:+ NL +:+ post) = sanitize (pre +:+ post).
Proof.
  intros Hpre Hl Hone. unfold sanitize.
  by rewrite PuppetFacts.remove_info_line.
Qed.

Lemma sanitize_removes_terminated_info_line_witness :
  at_line_start ("Notice: a" +:+ NL)
  ∧ starts_with_ci "Info:" "INFO: Applying configuration" = true
  ∧ one_line "INFO: Applying configuration"
  ∧ sanitize (("Notice: a" +:+ NL) +:+ "INFO: Applying configuration" +:+ NL
              +:+ "Notice: b" +:+ NL)
    = sanitize (("Notice: a" +:+ NL) +:+ "Notice: b" +:+ NL).
Proof.
  assert (H1 : at_line_start ("Notice: a" +:+ NL)) by (right; by exists "Notice: a").
  assert (H2 : starts_with_ci "Info:" "INFO: Applying configuration" = true)
    by reflexivity.
  assert (H3 : one_line "INFO: Applying configuration")
    by (unfold one_line, nl_free; apply (bool_decide_unpack _); vm_compute; exact I).
  split_and!; [exact H1|exact H2|exact H3|].
  exact (sanitize_removes_terminated_info_line _ _ _ H1 H2 H3).
Defined.

(** C4 fails as stated: a last line without a newline is not removed, and
    the output has a line that begins with [Info:]. *)
Lemma sanitize_keeps_unterminated_info_line :
  lines ("Notice: a" +:+ NL +:+ "Info: Caching catalog")
    = ["Notice: a"; "Info: Caching catalog"]
  ∧ starts_with_ci "Info:" "Info: Caching catalog" = true
  ∧ lines (sanitize ("Notice: a" +:+ NL +:+ "Info: Caching catalog"))
    = ["Notice: a"; "Info: Caching catalog"].
Proof. by vm_compute. Qed.

(** C9. A newline-terminated line that begins with [Info:] is gone after the
    first rule, so the redaction rules, which run later, never see it,
    whether or not it contains [password]: no marker stands for it. *)
Theorem info_line_removed_before_redaction (pre l post : string) :
  at_line_start pre → starts_with_ci "Info:" l = true → one_line l →
  remove_info (pre +:+ l +:+ NL +:+ post) = remove_info (pre +:+ post)
  ∧ sanitize (pre +:+ l +:+ NL +:+ post)
    = redact_password (redact_default_db (remove_notice (remove_info (pre +:+ post))))
  ∧ sanitize (l +:+ NL) = "".
Proof.
  intros Hpre Hl Hone. split_and!.
  - by apply PuppetFacts.remove_info_line.
  - unfold sanitize. by rewrite PuppetFacts.remove_info_line.
  - unfold sanitize.
    pose proof (PuppetFacts.remove_info_line "" l "" (or_introl eq_refl) Hl Hone) as H.
    change ("" +:+ l +:+ NL +:+ "") with (l +:+ NL +:+ "") in H.
    rewrite RpmFacts.append_nil_r in H. rewrite H. by vm_compute.
Qed.

Lemma info_line_removed_before_redaction_witness :
  at_line_start ""
  ∧ starts_with_ci "Info:" "info: db password is hunter2" = true
  ∧ one_line "info: db password is hunter2"
  ∧ contains "password" "info: db password is hunter2" = true
  ∧ (remove_info ("" +:+ "info: db password is hunter2" +:+ NL +:+ "Notice: b")
     = remove_info ("" +:+ "Notice: b")
     ∧ sanitize ("" +:+ "info: db password is hunter2" +:+ NL +:+ "Notice: b")
       = redact_password
           (redact_default_db (remove_notice (remove_info ("" +:+ "Notice: b"))))
     ∧ sanitize ("info: db password is hunter2" +:+ NL) = "").
Proof.
  assert (H1 : at_line_start "") by (by left).
  assert (H2 : starts_with_ci "Info:" "info: db password is hunter2" = true)
    by reflexivity.
  assert (H3 : one_line "info: db password is hunter2")
    by (unfold one_line, nl_free; apply (bool_decide_unpack _); vm_compute; exact I).
  split_and!; [exact H1|exact H2|exact H3|reflexivity|..];
    apply (info_line_removed_before_redaction "" _ "Notice: b" H1 H2 H3).
Defined.

(** ** Package snapshots and the delta report *)

(** C2. The body of the report is made of the lines of the diff that pass the
    filter, each followed by a newline. Every one of them is a [+] or a [-]
    followed by a letter, so none is a control line of the diff; and when the
    package identifiers are single lines, these are exactly the lines of the
    body. *)
Theorem format_body_change_lines (before after : list string) :
  let body := body_of (rpmdiff_lines before after) in
  let kept := kept (rpmdiff_lines before after) in
  body = concat_lines kept
  ∧ Forall change_line kept
  ∧ Forall (λ l, ¬ control_line l) kept
  ∧ (Forall one_line before → Forall one_line after → lines body = kept ++ [""]).
Proof.
  intros body kept. split_and!.
  - apply RpmFacts.body_of_kept.
  - apply ReportFacts.kept_change_lines.
  - eapply Forall_impl; [apply ReportFacts.kept_change_lines|].
    apply ReportFacts.change_line_not_control.
  - intros Hb Ha. unfold body. rewrite RpmFacts.body_of_kept.
    apply ReportFacts.lines_concat_lines. by apply ReportFacts.kept_one_line.
Qed.

Lemma format_body_change_lines_witness :
  Forall one_line ["a-1-1"; "b-2-2"; "389-ds-base-1.3-1"]
  ∧ Forall one_line ["a-1-1"; "c-3-3"; "zsh-5.0-1"]
  ∧ lines (body_of (rpmdiff_lines ["a-1-1"; "b-2-2"; "389-ds-base-1.3-1"]
                                  ["a-1-1"; "c-3-3"; "zsh-5.0-1"]))
    = kept (rpmdiff_lines ["a-1-1"; "b-2-2"; "389-ds-base-1.3-1"]
                                   ["a-1-1"; "c-3-3"; "zsh-5.0-1"]) ++ [""].
Proof.
  assert (H1 : Forall one_line ["a-1-1"; "b-2-2"; "389-ds-base-1.3-1"])
    by (unfold one_line, nl_free; apply (bool_decide_unpack _); vm_compute; exact I).
  assert (H2 : Forall one_line ["a-1-1"; "c-3-3"; "zsh-5.0-1"])
    by (unfold one_line, nl_free; apply (bool_decide_unpack _); vm_compute; exact I).
  split_and!; [exact H1|exact H2|].
  exact (proj2 (proj2 (proj2 (format_body_change_lines _ _))) H1 H2).
Defined.

(** C5. The report is the separator, the header line, the body and the
    separator again; the separator is 80 [=] and a newline. The model of
    [format] is a total function, and the work list of the sequence matcher
    always empties within its fuel, so a report is produced for every pair
    of snapshots, the empty ones included. *)
Theorem format_report_shape (before after : list string) :
  format before after
    = seperator +:+ ("This is the RPM delta" +:+ NL)
      +:+ body_of (rpmdiff_lines before after) +:+ seperator
  ∧ seperator = string_of_list_ascii (replicate 80 "="%char) +:+ NL
  ∧ is_Some (Difflib.raw_blocks before after)
  ∧ format [] [] = seperator +:+ ("This is the RPM delta" +:+ NL) +:+ seperator.
Proof.
  split_and!; [done|done|apply DifflibFacts.raw_blocks_total|by vm_compute].
Qed.

(** C6. The diff is taken with no context line and an empty line terminator;
    on the example it is the two file headers, one hunk header and the two
    changes, the removal first, and only the two changes reach the body. *)
Theorem format_example_replace :
  (∀ prelist postlist,
     rpmdiff_lines prelist postlist = Difflib.unified_diff prelist postlist 0 "")
  ∧ rpmdiff_lines ["a-1-1"; "b-2-2"] ["a-1-1"; "c-3-3"]
    = ["--- "; "+++ "; "@@ -2 +2 @@"; "-b-2-2"; "+c-3-3"]
  ∧ body_of (rpmdiff_lines ["a-1-1"; "b-2-2"] ["a-1-1"; "c-3-3"])
    = "-b-2-2" +:+ NL +:+ "+c-3-3" +:+ NL
  ∧ lines (body_of (rpmdiff_lines ["a-1-1"; "b-2-2"] ["a-1-1"; "c-3-3"]))
    = ["-b-2-2"; "+c-3-3"; ""].
Proof. split_and!; [done|by vm_compute..]. Qed.

(** C7. A snapshot compared with itself gives no diff line at all, hence an
    empty body: the report is the separator, the header and the separator. *)
Theorem format_same_snapshot (S : list string) :
  rpmdiff_lines S S = []
  ∧ body_of (rpmdiff_lines S S) = ""
  ∧ String.length (body_of (rpmdiff_lines S S)) = 0
  ∧ format S S = seperator +:+ ("This is the RPM delta" +:+ NL) +:+ seperator.
Proof.
  assert (H : rpmdiff_lines S S = []) by apply DifflibFacts.unified_diff_same.
  unfold format, formatdiff. rewrite H. by split_and!.
Qed.

(** C8. [rpm] returns one identifier per header of the database, in the
    order of the enumeration, each being name, version and release joined by
    [-]. *)
Theorem rpm_one_identifier_per_entry (mi : list header) :
  rpm mi = (λ h, name h +:+ "-" +:+ version h +:+ "-" +:+ release h) <$> mi
  ∧ length (rpm mi) = length mi
  ∧ ∀ i, rpm mi !! i
         = (λ h, name h +:+ "-" +:+ version h +:+ "-" +:+ release h) <$> mi !! i.
Proof.
  assert (H : rpm mi = nvr <$> mi) by apply (ReportFacts.rpm_snoc []).
  rewrite H. split_and!; [done|by rewrite length_fmap|].
  intros i. by rewrite list_lookup_fmap.
Qed.

(** C10. The filter keeps a line exactly when its first character is [-],
    [|] or [+] and its second an ASCII letter; a line that starts with [|]
    and a letter is therefore kept in the body. *)
Theorem formatdiff_filter_accepts_pipe :
  (∀ line,
     found line = true ↔
     ∃ c1 c2 rest,
       line = String c1 (String c2 rest)
       ∧ (c1 = "-" ∨ c1 = "|" ∨ c1 = "+")%char
       ∧ is_letter c2 = true)
  ∧ body_of ["@@ -1 +1 @@"; "|kernel-3.10-1"; "-bash-4.2-1"]
    = "|kernel-3.10-1" +:+ NL +:+ "-bash-4.2-1" +:+ NL
  ∧ formatdiff ["|kernel-3.10-1"]
    = seperator +:+ diffheader +:+ ("|kernel-3.10-1" +:+ NL) +:+ seperator.
Proof.
  split_and!; [|by vm_compute..].
  intros line. rewrite RpmFacts.found_spec. split.
  - destruct line as [|c1 [|c2 rest]]; [done..|].
    intros [Hs Hl]%andb_prop. exists c1, c2, rest. split_and!; [done| |done].
    unfold is_sign in Hs.
    apply orb_prop in Hs as [Hs|Hs]; [apply orb_prop in Hs as [Hs|Hs]|];
      apply Ascii.eqb_eq in Hs; auto.
  - intros (c1 & c2 & rest & -> & Hc & Hl). rewrite Hl.
    by destruct Hc as [->|[->| ->]].
Qed.

(** * Further properties of the code *)

(** ** The blocks of the sequence matcher are common blocks *)
Module BlockFacts.
Import Difflib.

Section blocks.
Variables a b : list string.

Lemma matches_at_0 i j : matches_at a b i j 0.
Proof. intros t Ht. lia. Qed.

Lemma matches_at_snoc i j k x :
  matches_at a b i j k → a !! (i + k) = Some x → b !! (j + k) = Some x →
  matches_at a b i j (S k).
Proof.
  intros Hm Ha Hb t Ht. destruct (decide (t = k)) as [->|]; [by exists x|].
  apply Hm. lia.
Qed.

Lemma matches_at_cons i j k x :
  matches_at a b (S i) (S j) k → a !! i = Some x → b !! j = Some x →
  matches_at a b i j (S k).
Proof.
  intros Hm Ha Hb [|t] Ht.
  - exists x. by rewrite !Nat.add_0_r.
  - destruct (Hm t ltac:(lia)) as (y & ? & ?). exists y.
    by replace (i + S t) with (S i + t) by lia;
       replace (j + S t) with (S j + t) by lia.
Qed.

Lemma matches_at_app i j k1 k2 :
  matches_at a b i j k1 → matches_at a b (i + k1) (j + k1) k2 →
  matches_at a b i j (k1 + k2).
Proof.
  intros H1 H2 t Ht. destruct (decide (t < k1)) as [|Hge]; [by apply H1|].
  destruct (H2 (t - k1) ltac:(lia)) as (y & ? & ?). exists y.
  by replace (i + t) with (i + k1 + (t - k1)) by lia;
     replace (j + t) with (j + k1 + (t - k1)) by lia.
Qed.

Lemma matches_at_eq i j k i' j' k' :
  matches_at a b i j k → i = i' → j = j' → k = k' → matches_at a b i' j' k'.
Proof. by intros H <- <- <-. Qed.

Lemma matches_at_1 i j x :
  a !! i = Some x → b !! j = Some x → matches_at a b i j 1.
Proof.
  intros Ha Hb. apply (matches_at_snoc _ _ _ x); [apply matches_at_0|..];
    by rewrite Nat.add_0_r.
Qed.

(** *** The scan *)
Lemma scan_row_good alo ahi blo bhi i j2len x :
  alo ≤ i → i < ahi → blo ≤ bhi → a !! i = Some x →
  runs_genuine a b alo blo bhi i j2len →
  ∀ js best nj,
    (∀ j, j ∈ js → b !! j = Some x) →
    good_block a b alo ahi blo bhi best →
    runs_genuine a b alo blo bhi (S i) nj →
    good_block a b alo ahi blo bhi (scan_row blo bhi i j2len js best nj).1
    ∧ runs_genuine a b alo blo bhi (S i) (scan_row blo bhi i j2len js best nj).2.
Proof.
  intros Hlo Hhi Hb Hx Hrow. induction js as [|j js IH]; intros best nj Hjs Hbest Hnj;
    [done|].
  simpl. destruct (decide (j < blo)) as [|Hjlo].
  { apply IH; [|done|done]. intros j' Hj'. apply Hjs. by right. }
  destruct (decide (bhi ≤ j)) as [|Hjhi]; [done|].
  assert (Hbj : b !! j = Some x) by (apply Hjs; by left).
  set (k := j2lenget_pred j2len j + 1).
  assert (Hk : k + alo ≤ S i ∧ k + blo ≤ j + 1
               ∧ matches_at a b (S i - k) (j + 1 - k) k).
  { unfold k. destruct j as [|j']; simpl.
    - split_and!; [lia|lia|].
      eapply matches_at_eq; [by apply (matches_at_1 i 0 x)|lia..].
    - destruct (j2len !! j') as [v|] eqn:E; simpl.
      + destruct (Hrow j' v E) as (H1 & H2 & H3 & H4).
        split_and!; [lia|lia|].
        assert (matches_at a b (i - v) (j' + 1 - v) (S v)) as H5.
        { apply (matches_at_snoc _ _ _ x); [exact H4| |].
          - by replace (i - v + v) with i by lia.
          - by replace (j' + 1 - v + v) with (S j') by lia. }
        eapply matches_at_eq; [exact H5|lia..].
      + split_and!; [lia|lia|].
        eapply matches_at_eq; [by apply (matches_at_1 i (S j') x)|lia..]. }
  destruct Hk as (Hk1 & Hk2 & Hk3).
  apply IH.
  - intros j' Hj'. apply Hjs. by right.
  - case_decide; [|done]. unfold good_block, genuine. simpl.
    replace (i + 1 - k) with (S i - k) by lia. split_and!; try lia. done.
  - intros j' v. rewrite lookup_insert. case_decide; [|apply Hnj].
    intros [= <-]. subst j'. split_and!; [lia|lia|lia|done].
Qed.

Lemma chain_b_elem x js j : chain_b b !! x = Some js → j ∈ js → b !! j = Some x.
Proof.
  intros H Hj. apply DifflibFacts.chain_b_lookup_Some in H as [-> _].
  by apply DifflibFacts.elem_of_positions.
Qed.

Lemma runs_genuine_empty alo blo bhi hi : runs_genuine a b alo blo bhi hi ∅.
Proof. intros j v. by rewrite lookup_empty. Qed.

Lemma scan_good_fold alo ahi blo bhi n :
  alo + n ≤ ahi → blo ≤ bhi →
  good_block a b alo ahi blo bhi
    (foldl (scan_step a b blo bhi) (mkMatch alo blo 0, ∅) (seq alo n)).1
  ∧ runs_genuine a b alo blo bhi (alo + n)
      (foldl (scan_step a b blo bhi) (mkMatch alo blo 0, ∅) (seq alo n)).2.
Proof.
  intros Hn Hb. induction n as [|n IH].
  - simpl. split; [|apply runs_genuine_empty].
    unfold good_block, genuine. simpl. split_and!; try lia. apply matches_at_0.
  - rewrite seq_S, foldl_app. destruct IH as [Hbest Hrow]; [lia|].
    set (st := foldl (scan_step a b blo bhi) (mkMatch alo blo 0, ∅) (seq alo n)) in *.
    simpl foldl. unfold scan_step.
    replace (alo + S n) with (S (alo + n)) by lia.
    destruct (a !! (alo + n)) as [x|] eqn:Hx; simpl.
    + destruct (chain_b b !! x) as [js|] eqn:Hjs; simpl.
      * apply (scan_row_good alo ahi blo bhi (alo + n) st.2 x);
          try done; try lia; try apply runs_genuine_empty.
        intros j Hj. by eapply chain_b_elem.
      * split; [done|apply runs_genuine_empty].
    + split; [done|apply runs_genuine_empty].
Qed.

Lemma scan_good alo ahi blo bhi :
  alo ≤ ahi → blo ≤ bhi → good_block a b alo ahi blo bhi (scan a b alo ahi blo bhi).
Proof.
  intros Ha Hb. unfold scan.
  apply (scan_good_fold alo ahi blo bhi (ahi - alo)); lia.
Qed.

(** *** The extension loops *)
Lemma same_elt_true i j :
  same_elt a b i j = true → ∃ x, a !! i = Some x ∧ b !! j = Some x.
Proof.
  unfold same_elt. destruct (a !! i) as [x|], (b !! j) as [y|]; try done.
  intros ->%bool_decide_eq_true. by exists y.
Qed.

Lemma extend_back_good want alo ahi blo bhi fuel : ∀ m,
  good_block a b alo ahi blo bhi m →
  good_block a b alo ahi blo bhi (extend_back a b fuel want alo blo m).
Proof.
  induction fuel as [|fuel IH]; intros m Hm; [done|]. simpl.
  destruct (back_cond a b want alo blo m) eqn:E; [|done].
  apply IH. unfold back_cond in E.
  apply andb_prop in E as [E Hs]. apply andb_prop in E as [E _].
  apply andb_prop in E as [Ha Hb].
  apply bool_decide_eq_true in Ha, Hb.
  apply same_elt_true in Hs as (x & Hxa & Hxb).
  destruct Hm as (H1 & H2 & H3 & H4 & H5).
  unfold good_block, genuine in *. simpl. split_and!; try lia.
  replace (m_size m + 1) with (S (m_size m)) by lia.
  apply (matches_at_cons _ _ _ x); [|done|done].
  by replace (S (m_a m - 1)) with (m_a m) by lia;
     replace (S (m_b m - 1)) with (m_b m) by lia.
Qed.

Lemma extend_fwd_good want alo ahi blo bhi fuel : ∀ m,
  good_block a b alo ahi blo bhi m →
  good_block a b alo ahi blo bhi (extend_fwd a b fuel want ahi bhi m).
Proof.
  induction fuel as [|fuel IH]; intros m Hm; [done|]. simpl.
  destruct (fwd_cond a b want ahi bhi m) eqn:E; [|done].
  apply IH. unfold fwd_cond in E.
  apply andb_prop in E as [E Hs]. apply andb_prop in E as [E _].
  apply andb_prop in E as [Ha Hb].
  apply bool_decide_eq_true in Ha, Hb.
  apply same_elt_true in Hs as (x & Hxa & Hxb).
  destruct Hm as (H1 & H2 & H3 & H4 & H5).
  unfold good_block, genuine in *. simpl. split_and!; try lia.
  replace (m_size m + 1) with (S (m_size m)) by lia.
  by apply (matches_at_snoc _ _ _ x).
Qed.

Lemma find_longest_match_good alo ahi blo bhi :
  alo ≤ ahi → blo ≤ bhi →
  good_block a b alo ahi blo bhi (find_longest_match a b alo ahi blo bhi).
Proof.
  intros Ha Hb. unfold find_longest_match, extend.
  do 2 (apply extend_fwd_good, extend_back_good).
  by apply scan_good.
Qed.

(** *** The matching blocks *)
Lemma blocks_loop_genuine fuel : ∀ queue blocks r,
  Forall region_ok2 queue → Forall (genuine a b) blocks →
  blocks_loop a b fuel queue blocks = Some r → Forall (genuine a b) r.
Proof.
  induction fuel as [|fuel IH]; intros queue blocks r Hq Hbl.
  - destruct queue as [|[[[alo ahi] blo] bhi] queue]; simpl; [|done].
    by intros [= <-].
  - destruct queue as [|[[[alo ahi] blo] bhi] queue]; simpl; [by intros [= <-]|].
    apply Forall_cons in Hq as [[Ha Hb] Hq].
    pose proof (find_longest_match_good alo ahi blo bhi Ha Hb) as Hgood.
    destruct (find_longest_match a b alo ahi blo bhi) as [i j k].
    destruct Hgood as (H1 & H2 & H3 & H4 & H5). simpl in *.
    destruct (decide (k = 0)); [by apply IH|].
    apply IH.
    + unfold push_if. repeat case_bool_decide; repeat constructor;
        simpl; try done; lia.
    + apply Forall_app. split; [done|]. by constructor.
Qed.

Lemma insert_sorted_Forall (P : Match → Prop) x l :
  P x → Forall P l → Forall P (insert_sorted x l).
Proof.
  intros Hx. induction 1 as [|y l Hy Hl IH]; simpl; [by constructor|].
  destruct (match_leb x y); repeat constructor; done.
Qed.

Lemma sort_blocks_Forall (P : Match → Prop) l :
  Forall P l → Forall P (sort_blocks l).
Proof.
  unfold sort_blocks. induction 1 as [|y l Hy Hl IH]; simpl; [constructor|].
  by apply insert_sorted_Forall.
Qed.

Lemma collapse_fold_genuine blocks : ∀ cur na,
  genuine a b cur → Forall (genuine a b) na → Forall (genuine a b) blocks →
  genuine a b (foldl collapse_step (cur, na) blocks).1
  ∧ Forall (genuine a b) (foldl collapse_step (cur, na) blocks).2.
Proof.
  induction blocks as [|x blocks IH]; intros cur na Hc Hna Hbl; [done|].
  apply Forall_cons in Hbl as [Hx Hbl]. simpl.
  destruct cur as [i1 j1 k1], x as [i2 j2 k2]. simpl.
  case_bool_decide as Hadj.
  - apply IH; [|done|done]. destruct Hadj as [<- <-].
    unfold genuine in *. simpl in *. by apply matches_at_app.
  - apply IH; [done| |done]. case_decide; [done|].
    apply Forall_app. split; [done|]. by constructor.
Qed.

Lemma get_matching_blocks_genuine :
  ∃ body,
    get_matching_blocks a b = body ++ [mkMatch (length a) (length b) 0]
    ∧ Forall (genuine a b) body.
Proof.
  unfold get_matching_blocks, collapse.
  destruct (DifflibFacts.raw_blocks_total a b) as [r Hr]. rewrite Hr. simpl.
  assert (Forall (genuine a b) (sort_blocks r)) as Hs.
  { apply sort_blocks_Forall. unfold raw_blocks in Hr.
    eapply blocks_loop_genuine; [| |exact Hr]; repeat constructor; simpl; lia. }
  destruct (collapse_fold_genuine (sort_blocks r) (mkMatch 0 0 0) [])
    as [Hc Hna]; [apply matches_at_0|constructor|done|].
  destruct (foldl collapse_step (mkMatch 0 0 0, []) (sort_blocks r))
    as [[i1 j1 k1] na]. simpl in *.
  eexists. split; [reflexivity|].
  case_decide; [done|]. apply Forall_app. split; [done|]. by constructor.
Qed.

(** *** The opcodes cover both sequences *)
Lemma opcode_step_eq i j answer ai bj size :
  opcode_step (i, j, answer) (mkMatch ai bj size)
  = (ai + size, bj + size, answer ++ gap_ops i j ai bj ++ equal_ops ai bj size).
Proof.
  unfold opcode_step, gap_ops, equal_ops.
  repeat case_bool_decide; case_decide; simpl;
    by rewrite ?app_nil_r, <- ?app_assoc.
Qed.

Lemma covered_a_app ops ops' p :
  covered_a ops p ∨ covered_a ops' p → covered_a (ops ++ ops') p.
Proof.
  intros [(op & ? & ?)|(op & ? & ?)]; exists op; rewrite elem_of_app; auto.
Qed.

Lemma covered_b_app ops ops' q :
  covered_b ops q ∨ covered_b ops' q → covered_b (ops ++ ops') q.
Proof.
  intros [(op & ? & ?)|(op & ? & ?)]; exists op; rewrite elem_of_app; auto.
Qed.

Lemma covered_a_one op p : op_i1 op ≤ p → p < op_i2 op → covered_a [op] p.
Proof. intros. exists op. split; [by apply list_elem_of_singleton|done]. Qed.

Lemma covered_b_one op q : op_j1 op ≤ q → q < op_j2 op → covered_b [op] q.
Proof. intros. exists op. split; [by apply list_elem_of_singleton|done]. Qed.

Lemma gap_ops_a i j ai bj p : i ≤ p → p < ai → covered_a (gap_ops i j ai bj) p.
Proof.
  intros. unfold gap_ops.
  repeat case_bool_decide; try lia; apply covered_a_one; simpl; lia.
Qed.

Lemma gap_ops_b i j ai bj q : j ≤ q → q < bj → covered_b (gap_ops i j ai bj) q.
Proof.
  intros. unfold gap_ops.
  repeat case_bool_decide; try lia; apply covered_b_one; simpl; lia.
Qed.

Lemma gap_ops_ok i j ai bj : Forall (op_ok a b) (gap_ops i j ai bj).
Proof.
  unfold gap_ops. repeat case_bool_decide;
    [apply Forall_singleton..|constructor]; unfold op_ok; simpl; try done; lia.
Qed.

Lemma equal_ops_a ai bj size p :
  ai ≤ p → p < ai + size → covered_a (equal_ops ai bj size) p.
Proof.
  intros. unfold equal_ops. case_decide; [lia|].
  apply covered_a_one; simpl; lia.
Qed.

Lemma equal_ops_b ai bj size q :
  bj ≤ q → q < bj + size → covered_b (equal_ops ai bj size) q.
Proof.
  intros. unfold equal_ops. case_decide; [lia|].
  apply covered_b_one; simpl; lia.
Qed.

Lemma equal_ops_ok ai bj size :
  matches_at a b ai bj size → Forall (op_ok a b) (equal_ops ai bj size).
Proof.
  intros Hg. unfold equal_ops. case_decide; [constructor|].
  apply Forall_singleton. unfold op_ok. simpl. split; [|lia].
  eapply matches_at_eq; [exact Hg|lia..].
Qed.

Lemma opcode_step_cover i j answer ai bj size :
  genuine a b (mkMatch ai bj size) → cover a b i j answer →
  ∃ answer',
    opcode_step (i, j, answer) (mkMatch ai bj size) = (ai + size, bj + size, answer')
    ∧ cover a b (ai + size) (bj + size) answer'.
Proof.
  intros Hg (Ha & Hb & Hok). unfold genuine in Hg. simpl in Hg.
  rewrite opcode_step_eq. eexists. split; [reflexivity|]. split_and!.
  - intros p Hp. apply covered_a_app.
    destruct (decide (p < i)) as [Hpi|Hpi]; [left; by apply Ha|right].
    apply covered_a_app.
    destruct (decide (p < ai)); [left; apply gap_ops_a|right; apply equal_ops_a]; lia.
  - intros q Hq. apply covered_b_app.
    destruct (decide (q < j)) as [Hqj|Hqj]; [left; by apply Hb|right].
    apply covered_b_app.
    destruct (decide (q < bj)); [left; apply gap_ops_b|right; apply equal_ops_b]; lia.
  - rewrite !Forall_app. split_and!; [done|apply gap_ops_ok|by apply equal_ops_ok].
Qed.

Lemma opcode_fold_cover blocks : ∀ i j answer,
  Forall (genuine a b) blocks → cover a b i j answer →
  ∃ i' j' answer',
    foldl opcode_step (i, j, answer) blocks = (i', j', answer')
    ∧ cover a b i' j' answer'
    ∧ (∀ x, last blocks = Some x → i' = m_a x + m_size x ∧ j' = m_b x + m_size x).
Proof.
  induction blocks as [|[ai bj size] blocks IH]; intros i j answer Hbl Hc.
  - exists i, j, answer. by split_and!.
  - apply Forall_cons in Hbl as [Hx Hbl].
    change (foldl opcode_step (i, j, answer) (mkMatch ai bj size :: blocks))
      with (foldl opcode_step (opcode_step (i, j, answer) (mkMatch ai bj size)) blocks).
    destruct (opcode_step_cover i j answer ai bj size Hx Hc) as (ans1 & -> & Hc1).
    destruct (IH _ _ _ Hbl Hc1) as (i' & j' & ans' & Hf & Hc' & Hlast).
    exists i', j', ans'. split_and!; [done|done|].
    intros x Hx'. destruct blocks as [|y blocks].
    + simpl in Hx', Hf. by simplify_eq.
    + apply Hlast. by rewrite last_cons_cons in Hx'.
Qed.

Lemma get_opcodes_cover : cover a b (length a) (length b) (get_opcodes a b).
Proof.
  unfold get_opcodes.
  destruct get_matching_blocks_genuine as (body & Hbody & Hg).
  destruct (opcode_fold_cover (get_matching_blocks a b) 0 0 [])
    as (i' & j' & ans' & Hf & Hc & Hlast).
  - rewrite Hbody. apply Forall_app. split; [done|].
    repeat constructor. apply matches_at_0.
  - split_and!; [intros; lia|intros; lia|constructor].
  - rewrite Hf. simpl.
    destruct (Hlast (mkMatch (length a) (length b) 0)) as [-> ->].
    { rewrite Hbody. apply last_snoc. }
    simpl in *. by rewrite !Nat.add_0_r in Hc.
Qed.

(** An element of [a] that [b] does not have lies in a [replace] or a
    [delete], one of [b] that [a] does not have in a [replace] or an
    [insert]. *)
Lemma only_in_a_opcode p x :
  a !! p = Some x → x ∉ b →
  ∃ op, op ∈ get_opcodes a b
        ∧ (op_tag op = Replace ∨ op_tag op = Delete)
        ∧ op_i1 op ≤ p ∧ p < op_i2 op.
Proof.
  intros Hp Hx. destruct get_opcodes_cover as (Ha & _ & Hok).
  destruct (Ha p) as (op & Hop & H1 & H2); [by eapply lookup_lt_Some|].
  exists op. split_and!; try done.
  rewrite Forall_forall in Hok. specialize (Hok op Hop). unfold op_ok in Hok.
  destruct (op_tag op); auto; [lia|]. exfalso.
  destruct Hok as [Hm _]. destruct (Hm (p - op_i1 op) ltac:(lia)) as (y & Hya & Hyb).
  replace (op_i1 op + (p - op_i1 op)) with p in Hya by lia.
  apply Hx. rewrite Hp in Hya. simplify_eq. by eapply list_elem_of_lookup_2.
Qed.

Lemma only_in_b_opcode q y :
  b !! q = Some y → y ∉ a →
  ∃ op, op ∈ get_opcodes a b
        ∧ (op_tag op = Replace ∨ op_tag op = Insert)
        ∧ op_j1 op ≤ q ∧ q < op_j2 op.
Proof.
  intros Hq Hy. destruct get_opcodes_cover as (_ & Hb & Hok).
  destruct (Hb q) as (op & Hop & H1 & H2); [by eapply lookup_lt_Some|].
  exists op. split_and!; try done.
  rewrite Forall_forall in Hok. specialize (Hok op Hop). unfold op_ok in Hok.
  destruct (op_tag op); auto; [lia|]. exfalso.
  destruct Hok as [Hm Hlen].
  destruct (Hm (q - op_j1 op) ltac:(lia)) as (x & Hxa & Hxb).
  replace (op_j1 op + (q - op_j1 op)) with q in Hxb by lia.
  apply Hy. rewrite Hq in Hxb. simplify_eq. by eapply list_elem_of_lookup_2.
Qed.

End blocks.

End BlockFacts.

(** ** From the opcodes to the lines of the diff *)
Module DiffLineFacts.
Import Difflib Rpmdatabase.

Lemma fix_first_keeps n codes op :
  op ∈ codes → op_tag op ≠ Equal → op ∈ fix_first n codes.
Proof.
  intros Hin Hne. destruct codes as [|[[] i1 i2 j1 j2] rest]; try done.
  simpl. apply elem_of_cons in Hin as [->|Hin]; [done|]. by right.
Qed.

Lemma fix_last_keeps n codes op :
  op ∈ codes → op_tag op ≠ Equal → op ∈ fix_last n codes.
Proof.
  intros Hin Hne. unfold fix_last.
  destruct (last codes) as [[[] i1 i2 j1 j2]|] eqn:Hl; try done.
  apply last_Some in Hl as [l' ->]. rewrite removelast_last.
  apply elem_of_app in Hin as [Hin|Hin]; [apply elem_of_app; by left|].
  apply list_elem_of_singleton in Hin. by subst op.
Qed.

Lemma group_fold_keeps n op codes : ∀ group out,
  op_tag op ≠ Equal →
  op ∈ group ∨ (∃ g, g ∈ out ∧ op ∈ g) ∨ op ∈ codes →
  op ∈ (foldl (group_step n) (group, out) codes).1
  ∨ ∃ g, g ∈ (foldl (group_step n) (group, out) codes).2 ∧ op ∈ g.
Proof.
  intros group out Hne. revert group out.
  induction codes as [|c codes IH]; intros group out H.
  - simpl. destruct H as [?|[?|H]]; auto. by apply elem_of_nil in H.
  - simpl foldl. destruct c as [tg i1 i2 j1 j2]. unfold group_step at 2.
    destruct (bool_decide (tg = Equal) && bool_decide (n + n < i2 - i1)) eqn:E.
    + apply IH. destruct H as [H|[(g & Hg & Hop)|H]].
      * right. left. eexists. split; [apply elem_of_app; right; by left|].
        apply elem_of_app. by left.
      * right. left. exists g. split; [apply elem_of_app; by left|done].
      * apply elem_of_cons in H as [->|H]; [|by right; right].
        apply andb_prop in E as [E _]. by apply bool_decide_eq_true in E.
    + apply IH. destruct H as [H|[H|H]].
      * left. apply elem_of_app. by left.
      * right. by left.
      * apply elem_of_cons in H as [->|H]; [|by right; right].
        left. apply elem_of_app. right. by left.
Qed.

(** With any number of context lines, an opcode that is not [equal] is in
    one of the groups. *)
Lemma grouped_keeps a b n op :
  op ∈ get_opcodes a b → op_tag op ≠ Equal →
  ∃ g, g ∈ get_grouped_opcodes a b n ∧ op ∈ g.
Proof.
  intros Hin Hne. unfold get_grouped_opcodes.
  assert (op ∈ fix_last n (fix_first n
            match get_opcodes a b with [] => [Op Equal 0 1 0 1] | _ => get_opcodes a b end))
    as Hcodes.
  { apply fix_last_keeps; [|done]. apply fix_first_keeps; [|done].
    destruct (get_opcodes a b); [by apply elem_of_nil in Hin|done]. }
  pose proof (group_fold_keeps n op _ [] [] Hne (or_intror (or_intror Hcodes))) as H.
  destruct (foldl (group_step n) ([], []) _) as [group out]. simpl in H.
  destruct H as [H|(g & Hg & Hop)].
  - exists group. split; [|done].
    destruct group as [|[[] i1 i2 j1 j2] [|c group]];
      try (apply elem_of_app; right; by left).
    + by apply elem_of_nil in H.
    + apply list_elem_of_singleton in H. by subst op.
  - exists g. split; [|done].
    destruct group as [|[[] i1 i2 j1 j2] [|c group]]; try done;
      apply elem_of_app; by left.
Qed.

Lemma elem_of_concat_2 (x : string) l (ls : list (list string)) :
  l ∈ ls → x ∈ l → x ∈ concat ls.
Proof.
  intros Hl Hx. apply list_elem_of_In, in_concat. exists l.
  by rewrite <- !list_elem_of_In.
Qed.

Lemma unified_diff_has a b n lineterm g op l :
  g ∈ get_grouped_opcodes a b n → op ∈ g → l ∈ opcode_lines a b op →
  l ∈ unified_diff a b n lineterm.
Proof.
  intros Hg Hop Hl. unfold unified_diff.
  destruct (get_grouped_opcodes a b n) as [|g0 gs] eqn:E;
    [by apply elem_of_nil in Hg|].
  do 2 right. apply (elem_of_concat_2 _ (group_lines a b lineterm g)).
  - by apply list_elem_of_fmap_2.
  - unfold group_lines. right.
    apply (elem_of_concat_2 _ (opcode_lines a b op)); [|done].
    by apply list_elem_of_fmap_2.
Qed.

Lemma elem_of_slice_2 (l : list string) i1 i2 p x :
  l !! p = Some x → i1 ≤ p → p < i2 → x ∈ slice l i1 i2.
Proof.
  intros Hp H1 H2. unfold slice. apply list_elem_of_lookup. exists (p - i1).
  rewrite lookup_take_lt by lia. rewrite lookup_drop.
  by replace (i1 + (p - i1)) with p by lia.
Qed.

(** An element that only the first sequence has is on a [-] line, one that
    only the second has on a [+] line. *)
Lemma removed_line a b n lineterm x :
  x ∈ a → x ∉ b → String "-" x ∈ unified_diff a b n lineterm.
Proof.
  intros Ha Hb. apply list_elem_of_lookup in Ha as [p Hp].
  destruct (BlockFacts.only_in_a_opcode a b p x Hp Hb) as (op & Hop & Htag & H1 & H2).
  destruct (grouped_keeps a b n op Hop) as (g & Hg & Hopg).
  { destruct Htag as [-> | ->]; done. }
  apply (unified_diff_has a b n lineterm g op); [done|done|].
  destruct op as [tg i1 i2 j1 j2]. simpl in *.
  assert (String "-" x ∈ String "-" <$> slice a i1 i2)
    by (apply list_elem_of_fmap_2; by eapply elem_of_slice_2).
  destruct Htag as [-> | ->]; [apply elem_of_app; by left|done].
Qed.

Lemma added_line a b n lineterm y :
  y ∈ b → y ∉ a → String "+" y ∈ unified_diff a b n lineterm.
Proof.
  intros Hb Ha. apply list_elem_of_lookup in Hb as [q Hq].
  destruct (BlockFacts.only_in_b_opcode a b q y Hq Ha) as (op & Hop & Htag & H1 & H2).
  destruct (grouped_keeps a b n op Hop) as (g & Hg & Hopg).
  { destruct Htag as [-> | ->]; done. }
  apply (unified_diff_has a b n lineterm g op); [done|done|].
  destruct op as [tg i1 i2 j1 j2]. simpl in *.
  assert (String "+" y ∈ String "+" <$> slice b j1 j2)
    by (apply list_elem_of_fmap_2; by eapply elem_of_slice_2).
  destruct Htag as [-> | ->]; [apply elem_of_app; by right|done].
Qed.

(** The sequence each line of the diff comes from. *)
Lemma opcode_lines_signed a b c l : l ∈ opcode_lines a b c → signed_line a b l.
Proof.
  destruct c as [[] i1 i2 j1 j2]; simpl;
    rewrite ?elem_of_app, !list_elem_of_fmap; intros H;
    repeat match goal with
      | H : _ ∨ _ |- _ => destruct H
      | H : ∃ _, _ |- _ => destruct H as (? & -> & ?%RpmFacts.elem_of_slice)
      end; unfold signed_line; eauto 10.
Qed.

Lemma unified_diff_signed a b n l : l ∈ unified_diff a b n "" → signed_line a b l.
Proof.
  unfold unified_diff.
  destruct (get_grouped_opcodes a b n) as [|g gs]; [by rewrite elem_of_nil|].
  rewrite !elem_of_cons. intros [->|[->|H]].
  - left. by left.
  - left. right. by left.
  - apply RpmFacts.elem_of_concat in H as (ls & Hls & Hl).
    apply list_elem_of_fmap in Hls as (g' & -> & _).
    unfold group_lines in Hl. apply elem_of_cons in Hl as [->|Hl].
    + left. right. right. by eexists.
    + apply RpmFacts.elem_of_concat in Hl as (ls & Hls & Hl).
      apply list_elem_of_fmap in Hls as (c & -> & _).
      by eapply opcode_lines_signed.
Qed.

End DiffLineFacts.

(** ** An empty snapshot on one side *)
Module EmptyFacts.
Import Difflib Rpmdatabase.

Lemma find_longest_match_nil_l b bhi : find_longest_match [] b 0 0 0 bhi = mkMatch 0 0 0.
Proof. reflexivity. Qed.

Lemma get_opcodes_nil_l b :
  get_opcodes [] b
  = if decide (length b = 0) then [] else [Op Insert 0 0 0 (length b)].
Proof.
  unfold get_opcodes, get_matching_blocks, raw_blocks, blocks_fuel. simpl.
  case_decide; [by rewrite bool_decide_eq_false_2 by lia|].
  by rewrite bool_decide_eq_true_2 by lia.
Qed.

Lemma unified_diff_nil_l b :
  unified_diff [] b 0 ""
  = match b with
    | [] => []
    | _ => "--- " :: "+++ "
           :: ("@@ -0,0 +" +:+ _format_range_unified 0 (length b) +:+ " @@")
           :: (String "+" <$> b)
    end.
Proof.
  unfold unified_diff, get_grouped_opcodes. rewrite get_opcodes_nil_l.
  destruct b as [|y b]; [done|]. simpl.
  rewrite !app_nil_r, take_ge by lia. reflexivity.
Qed.

Lemma scan_nil_r a n :
  foldl (scan_step a [] 0 0) (mkMatch 0 0 0, ∅) (seq 0 n) = (mkMatch 0 0 0, ∅).
Proof.
  induction n as [|n IH]; [done|]. rewrite seq_S, foldl_app, IH. simpl.
  unfold scan_step. simpl. by destruct (a !! n).
Qed.

Lemma extend_fwd_nil_r a want fuel ahi m :
  extend_fwd a [] fuel want ahi 0 m = m.
Proof.
  destruct fuel as [|fuel]; [done|]. simpl. unfold fwd_cond.
  rewrite (bool_decide_eq_false_2 (m_b m + m_size m < 0)) by lia.
  by rewrite andb_false_r.
Qed.

Lemma find_longest_match_nil_r a ahi : find_longest_match a [] 0 ahi 0 0 = mkMatch 0 0 0.
Proof.
  unfold find_longest_match, scan. rewrite scan_nil_r. simpl.
  unfold extend. simpl. by rewrite !extend_fwd_nil_r.
Qed.

Lemma get_opcodes_nil_r a :
  get_opcodes a []
  = if decide (length a = 0) then [] else [Op Delete 0 (length a) 0 0].
Proof.
  unfold get_opcodes, get_matching_blocks, raw_blocks, blocks_fuel.
  replace (2 * length a + 1) with (S (2 * length a)) by lia.
  simpl blocks_loop. rewrite find_longest_match_nil_r. simpl.
  rewrite DifflibFacts.blocks_loop_nil. simpl.
  case_decide; [by rewrite !bool_decide_eq_false_2 by lia|].
  rewrite (bool_decide_eq_false_2 (0 < length a ∧ 0 < 0)) by lia.
  by rewrite bool_decide_eq_true_2 by lia.
Qed.

Lemma unified_diff_nil_r a :
  unified_diff a [] 0 ""
  = match a with
    | [] => []
    | _ => "--- " :: "+++ "
           :: ("@@ -" +:+ _format_range_unified 0 (length a) +:+ " +0,0 @@")
           :: (String "-" <$> a)
    end.
Proof.
  unfold unified_diff, get_grouped_opcodes. rewrite get_opcodes_nil_r.
  destruct a as [|x a]; [done|]. simpl.
  rewrite !app_nil_r, take_ge by lia. reflexivity.
Qed.

(** The filter on signed lines. *)
Lemma found_signed c x :
  (c = "-" ∨ c = "+")%char → found (String c x) = starts_with_letter x.
Proof.
  intros Hc. rewrite RpmFacts.found_spec. destruct x as [|c2 rest].
  - done.
  - simpl. by destruct Hc as [-> | ->].
Qed.

Lemma kept_signed c l :
  (c = "-" ∨ c = "+")%char →
  kept (String c <$> l) = String c <$> filter (λ x, starts_with_letter x) l.
Proof.
  intros Hc. unfold kept. induction l as [|x l IH]; [done|].
  rewrite fmap_cons, !filter_cons, IH, (found_signed c x Hc).
  by destruct (starts_with_letter x).
Qed.

End EmptyFacts.

(** ** Words across lines *)
Module WordFacts.
Import Re ReFacts Puppet PuppetFacts.

Lemma is_prefix_app w u r : is_prefix w u = true → is_prefix w (u ++ r) = true.
Proof.
  revert u. induction w as [|x w IH]; intros [|c u]; simpl; try done.
  intros [Hx Hw]%andb_prop. by rewrite Hx, IH.
Qed.

Lemma is_infix_cons w c s : is_infix w s = true → is_infix w (c :: s) = true.
Proof. intros H. simpl. rewrite H. apply orb_true_r. Qed.

Lemma is_infix_app w u r :
  is_infix w u = true ∨ is_infix w r = true → is_infix w (u ++ r) = true.
Proof.
  induction u as [|c u IH]; intros [H|H].
  - destruct w; [by destruct r|done].
  - done.
  - change (is_infix w (c :: u) = true)
      with (is_prefix w (c :: u) || is_infix w u = true) in H.
    apply orb_prop in H as [H|H].
    + change (is_prefix w ((c :: u) ++ r) || is_infix w (u ++ r) = true).
      by rewrite is_prefix_app.
    + apply (is_infix_cons w c (u ++ r)), IH. by left.
  - apply (is_infix_cons w c (u ++ r)), IH. by right.
Qed.

Lemma is_infix_app_false w u r :
  is_infix w (u ++ r) = false → is_infix w u = false ∧ is_infix w r = false.
Proof.
  intros H. split.
  - destruct (is_infix w u) eqn:E; [|done].
    by rewrite is_infix_app in H by (by left).
  - destruct (is_infix w r) eqn:E; [|done].
    by rewrite is_infix_app in H by (by right).
Qed.

(** A word without a newline lies within one line. *)
Lemma is_prefix_nl_cut w : ∀ u r,
  nl_free w → is_prefix w (u ++ nl :: r) = is_prefix w u.
Proof.
  induction w as [|x w IH]; intros u r Hw; [by destruct u|].
  apply nl_free_cons in Hw as [Hx Hw].
  destruct u as [|c u]; simpl.
  - by destruct (Ascii.eqb_spec x nl).
  - by rewrite IH.
Qed.

Lemma is_infix_line w u r :
  nl_free w → w ≠ [] →
  is_infix w (u ++ nl :: r) = is_infix w u || is_infix w r.
Proof.
  intros Hw Hne. induction u as [|c u IH].
  - change (is_prefix w ([] ++ nl :: r) || is_infix w r
            = is_infix w [] || is_infix w r).
    rewrite is_prefix_nl_cut by done. by destruct w.
  - change (is_prefix w ((c :: u) ++ nl :: r) || is_infix w (u ++ nl :: r)
            = (is_prefix w (c :: u) || is_infix w u) || is_infix w r).
    rewrite is_prefix_nl_cut, IH by done. by rewrite orb_assoc.
Qed.

Lemma is_infix_join_nl w : ∀ ls,
  nl_free w → w ≠ [] →
  is_infix w (join_nl ls) = false ↔ Forall (λ l, is_infix w l = false) ls.
Proof.
  intros ls Hw Hne. induction ls as [|l ls IH].
  - split; [by constructor|]. intros _. by destruct w.
  - destruct ls as [|l' ls].
    + simpl. split; [by repeat constructor|]. by intros [? _]%Forall_cons.
    + change (join_nl (l :: l' :: ls)) with (l ++ nl :: join_nl (l' :: ls)).
      rewrite is_infix_line by done. rewrite orb_false_iff, IH.
      by rewrite (Forall_cons _ l).
Qed.

Lemma contains_lines w t :
  one_line w → w ≠ "" →
  contains w t = false ↔ Forall (λ l, contains w l = false) (lines t).
Proof.
  intros Hw Hne. unfold contains, lines.
  rewrite <- (join_split_nl (chars t)) at 1.
  rewrite is_infix_join_nl, Forall_fmap; [|done|by destruct w].
  apply Forall_iff. intros l. simpl.
  by rewrite list_ascii_of_string_of_list_ascii.
Qed.

Lemma redact_line_clean l :
  contains "default_db" (redact_line l) = false
  ∧ contains "password" (redact_line l) = false.
Proof.
  unfold redact_line.
  destruct (contains "default_db" l) eqn:E1; [by vm_compute|].
  destruct (contains "password" l) eqn:E2; [by vm_compute|]. done.
Qed.

Lemma redact_line_id l :
  contains "default_db" l = false → contains "password" l = false →
  redact_line l = l.
Proof. intros H1 H2. unfold redact_line. by rewrite H1, H2. Qed.

Lemma redact_stage_lines t :
  lines (redact_password (redact_default_db t)) = redact_line <$> lines t.
Proof.
  unfold lines at 1. rewrite SanitizeFacts.redact_stage, SanitizeFacts.split_join_nl.
  - rewrite <- list_fmap_compose. rewrite <- (list_fmap_id (redact_line <$> lines t)) at 2.
    apply list_fmap_ext. intros _ l _. simpl.
    apply string_of_list_ascii_of_string.
  - unfold lines. pose proof (split_nl_ne (chars t)).
    by destruct (split_nl (chars t)).
  - apply Forall_fmap, Forall_fmap.
    eapply Forall_impl; [apply SanitizeFacts.lines_one_line|].
    intros l Hl. simpl. by apply SanitizeFacts.redact_line_one_line.
Qed.

Lemma redact_stage_clean w t :
  w = "default_db" ∨ w = "password" →
  contains w (redact_password (redact_default_db t)) = false.
Proof.
  intros Hw.
  apply contains_lines.
  - destruct Hw as [-> | ->]; unfold one_line, nl_free; by_evaluation.
  - by destruct Hw as [-> | ->].
  - rewrite redact_stage_lines. apply Forall_fmap, Forall_forall. intros l _.
    simpl. destruct (redact_line_clean l). by destruct Hw as [-> | ->].
Qed.

Lemma redact_stage_id t :
  contains "default_db" t = false → contains "password" t = false →
  redact_password (redact_default_db t) = t.
Proof.
  intros H1 H2. apply chars_inj. rewrite SanitizeFacts.redact_stage.
  apply contains_lines in H1; [|unfold one_line, nl_free; by_evaluation|done].
  apply contains_lines in H2; [|unfold one_line, nl_free; by_evaluation|done].
  rewrite <- (join_split_nl (chars t)) at 1. f_equal.
  unfold lines in *. rewrite <- !list_fmap_compose.
  rewrite <- (list_fmap_id (split_nl (chars t))) at 2.
  apply list_fmap_ext. intros i l Hl. simpl.
  rewrite Forall_fmap, Forall_lookup in H1, H2.
  rewrite redact_line_id; [|by apply (H1 i)|by apply (H2 i)].
  apply list_ascii_of_string_of_list_ascii.
Qed.

End WordFacts.

(** ** The lines of the report *)
Module DeltaFacts.
Import Difflib Rpmdatabase.

Lemma control_line_not_found l : control_line l → found l = false.
Proof.
  rewrite RpmFacts.found_spec. by intros [->|[->|[r ->]]]; [..|destruct r].
Qed.

Lemma kept_signed_line a b l :
  l ∈ kept (rpmdiff_lines a b) →
  (∃ x, l = String "-" x ∧ x ∈ a ∧ starts_with_letter x = true)
  ∨ (∃ x, l = String "+" x ∧ x ∈ b ∧ starts_with_letter x = true).
Proof.
  intros Hl. apply list_elem_of_filter in Hl as [Hf Hl]. apply Is_true_true in Hf.
  apply DiffLineFacts.unified_diff_signed in Hl.
  destruct Hl as [Hc|[(x & -> & Hx)|[(x & -> & Hx)|(x & -> & Hx)]]].
  - by rewrite control_line_not_found in Hf.
  - rewrite RpmFacts.found_spec in Hf. by destruct x.
  - left. exists x. by rewrite EmptyFacts.found_signed in Hf by (by left).
  - right. exists x. by rewrite EmptyFacts.found_signed in Hf by (by right).
Qed.

Lemma kept_elem l d : l ∈ d → found l = true → l ∈ kept d.
Proof.
  intros Hl Hf. apply list_elem_of_filter. split; [by apply Is_true_true|done].
Qed.

Lemma kept_cons_false l d : found l = false → kept (l :: d) = kept d.
Proof.
  intros Hf. unfold kept. rewrite filter_cons, decide_False; [done|].
  rewrite Hf. exact id.
Qed.

Lemma kept_headers h d : kept ("--- " :: "+++ " :: String "@" h :: d) = kept d.
Proof.
  rewrite !kept_cons_false; [done|..]; rewrite RpmFacts.found_spec; try done.
  by destruct h.
Qed.

Lemma body_has_line l d :
  l ∈ kept d → ∃ pre post, body_of d = pre +:+ l +:+ NL +:+ post.
Proof.
  intros Hl. apply list_elem_of_split in Hl as (l1 & l2 & Hl).
  exists (concat_lines l1), (concat_lines l2).
  by rewrite RpmFacts.body_of_kept, Hl, RpmFacts.concat_lines_app.
Qed.

Lemma kept_nil_without_letters a b :
  Forall (λ x, starts_with_letter x = false) a →
  Forall (λ x, starts_with_letter x = false) b →
  kept (rpmdiff_lines a b) = [].
Proof.
  intros Ha Hb. destruct (kept (rpmdiff_lines a b)) as [|l ls] eqn:E; [done|].
  assert (l ∈ kept (rpmdiff_lines a b)) as Hl by (rewrite E; left).
  rewrite Forall_forall in Ha, Hb.
  apply kept_signed_line in Hl as [(x & _ & Hx & Hs)|(x & _ & Hx & Hs)].
  - by rewrite (Ha x Hx) in Hs.
  - by rewrite (Hb x Hx) in Hs.
Qed.

End DeltaFacts.

(** ** The flow of [main] *)
Module MainFacts.
Import Main.

Lemma normalise_eqb_run st :
  String.eqb (normalise st) "run" = String.eqb (py_value st) "run".
Proof.
  unfold normalise, py_is. destruct (py_interned st); [|done]. simpl.
  destruct (String.eqb_spec (py_value st) "disabled") as [->|_]; [done|].
  by destruct (String.eqb_spec (py_value st) "enabled") as [->|_].
Qed.

Lemma normalise_other st :
  py_value st ≠ "disabled" → py_value st ≠ "enabled" → normalise st = py_value st.
Proof.
  intros H1 H2. unfold normalise, py_is.
  apply String.eqb_neq in H1, H2. by rewrite H1, H2, !andb_false_r.
Qed.

Section flow.
Context {host : Type}.
Variable run_command : string → host → (Z * string * string) * host.
Variable dbMatch : host → list Rpmdatabase.header.

Lemma puppet_status_run h :
  puppet_status host run_command "run" h
  = (((agent_run run_command h).1.1.1,
      Puppet.sanitize (agent_run run_command h).1.1.2,
      (agent_run run_command h).1.2),
     (agent_run run_command h).2).
Proof.
  unfold puppet_status, agent_run. simpl.
  destruct (run_command "puppet agent --enable" h) as [r1 h1]. simpl.
  by destruct (run_command "puppet agent --test --color 0" h1) as [[[rc out] err] h2].
Qed.

Lemma main_unaccepted st pd h :
  py_value st ∉ accepted_states →
  main host run_command dbMatch (Params (Some st) pd) h
  = (fail_json ("value of state must be one of: enabled, disabled, run, got: "
                +:+ py_value st), h).
Proof. intros Hst. unfold main. cbn [state]. by rewrite bool_decide_eq_false_2. Qed.

Lemma main_accepted st pd h :
  py_value st ∈ accepted_states →
  main host run_command dbMatch (Params (Some st) pd) h
  = if pd && String.eqb (py_value st) "run" then
      let r := agent_run run_command h in
      let stdout := Puppet.sanitize r.1.1.2
                    +:+ Rpmdatabase.format (Rpmdatabase.rpm (dbMatch h))
                                           (Rpmdatabase.rpm (dbMatch r.2)) in
      if bool_decide (r.1.1.1 ≠ 2%Z)
      then (fail_json ("Puppet encountered errors. " +:+ stdout +:+ " " +:+ r.1.2), r.2)
      else (exit_json true 0 stdout r.1.2, r.2)
    else
      let r := puppet_status host run_command (normalise st) h in
      (exit_json true r.1.1.1 r.1.1.2 r.1.2, r.2).
Proof.
  intros Hst. unfold main. cbn [state packagediff].
  rewrite bool_decide_eq_true_2 by done. cbv zeta.
  rewrite normalise_eqb_run.
  destruct (pd && String.eqb (py_value st) "run") eqn:E.
  - apply andb_prop in E as [_ E]. apply String.eqb_eq in E.
    rewrite (normalise_other st) by (by rewrite E). rewrite E.
    rewrite puppet_status_run. done.
  - by destruct (puppet_status host run_command (normalise st) h) as [[[rc out] err] h'].
Qed.

End flow.

End MainFacts.

(** ** The sanitizer, on any output of the agent *)

(** X1. Whatever the agent printed, the text that [puppet_status] returns for
    a run contains neither [password] nor [default_db] (in this spelling),
    as a whole and in each of its lines. *)
Theorem sanitize_output_has_no_secret_word (raw : string) :
  contains "password" (sanitize raw) = false
  ∧ contains "default_db" (sanitize raw) = false
  ∧ Forall (λ l, contains "password" l = false ∧ contains "default_db" l = false)
      (lines (sanitize raw)).
Proof.
  assert (H1 : contains "password" (sanitize raw) = false)
    by (apply WordFacts.redact_stage_clean; by right).
  assert (H2 : contains "default_db" (sanitize raw) = false)
    by (apply WordFacts.redact_stage_clean; by left).
  split_and!; [done..|].
  apply WordFacts.contains_lines in H1;
    [|unfold one_line, nl_free; by_evaluation|done].
  apply WordFacts.contains_lines in H2;
    [|unfold one_line, nl_free; by_evaluation|done].
  rewrite Forall_forall in H1, H2. apply Forall_forall. intros l Hl.
  split; [by apply H1|by apply H2].
Qed.

(** X2. An output that mentions none of the four patterns ([Info:] and the
    notice in any case, [default_db] and [password] as spelled) is returned
    byte for byte. *)
Theorem sanitize_identity_without_patterns (raw : string) :
  contains_ci "Info:" raw = false →
  contains_ci "Notice: Ignoring --listen on onetime run" raw = false →
  contains "default_db" raw = false →
  contains "password" raw = false →
  sanitize raw = raw.
Proof.
  intros Hi Hn Hd Hp. unfold sanitize.
  rewrite (PuppetFacts.remove_info_absent raw Hi),
    (PuppetFacts.remove_notice_absent raw Hn).
  by apply WordFacts.redact_stage_id.
Qed.

Lemma sanitize_identity_without_patterns_witness :
  sanitize ("Notice: Finished catalog run in 1.05 seconds" +:+ NL
            +:+ "Error: Could not find class ntp" +:+ NL)
  = "Notice: Finished catalog run in 1.05 seconds" +:+ NL
    +:+ "Error: Could not find class ntp" +:+ NL.
Proof.
  apply (sanitize_identity_without_patterns
           ("Notice: Finished catalog run in 1.05 seconds" +:+ NL
            +:+ "Error: Could not find class ntp" +:+ NL));
    reflexivity.
Defined.

(** ** The delta report and the two snapshots *)

(** X3. Every line of the body of the report is a [-] followed by an
    identifier of the first snapshot or a [+] followed by an identifier of
    the second one, and that identifier begins with an ASCII letter. *)
Theorem report_lines_signed_by_snapshot (before after : list string) :
  Forall (λ l, (∃ x, l = String "-" x ∧ x ∈ before ∧ starts_with_letter x = true)
               ∨ (∃ x, l = String "+" x ∧ x ∈ after ∧ starts_with_letter x = true))
    (kept (rpmdiff_lines before after)).
Proof. apply Forall_forall. intros l. apply DeltaFacts.kept_signed_line. Qed.

(** X4. A package of the first snapshot that is not in the second one, and
    whose identifier begins with a letter, is reported: its [-] line is among
    the lines kept, and the body contains that line with its newline. *)
Theorem removed_package_reported (before after : list string) (x : string) :
  x ∈ before → x ∉ after → starts_with_letter x = true →
  String "-" x ∈ kept (rpmdiff_lines before after)
  ∧ ∃ pre post,
      body_of (rpmdiff_lines before after) = pre +:+ String "-" x +:+ NL +:+ post.
Proof.
  intros Hx Hnx Hs.
  assert (String "-" x ∈ kept (rpmdiff_lines before after)) as H.
  { apply DeltaFacts.kept_elem; [by apply DiffLineFacts.removed_line|].
    by rewrite EmptyFacts.found_signed by (by left). }
  split; [done|]. by apply DeltaFacts.body_has_line.
Qed.

Lemma removed_package_reported_witness :
  String "-" "vim-7.4-1"
    ∈ kept (rpmdiff_lines ["bash-4.2-1"; "vim-7.4-1"; "zsh-5.0-2"]
                          ["bash-4.2-1"; "zsh-5.0-2"])
  ∧ ∃ pre post,
      body_of (rpmdiff_lines ["bash-4.2-1"; "vim-7.4-1"; "zsh-5.0-2"]
                             ["bash-4.2-1"; "zsh-5.0-2"])
      = pre +:+ String "-" "vim-7.4-1" +:+ NL +:+ post.
Proof.
  apply (removed_package_reported ["bash-4.2-1"; "vim-7.4-1"; "zsh-5.0-2"]
           ["bash-4.2-1"; "zsh-5.0-2"] "vim-7.4-1");
    [by_evaluation|by_evaluation|reflexivity].
Defined.

(** X5. A package of the second snapshot that is not in the first one, and
    whose identifier begins with a letter, is reported with a [+]. *)
Theorem added_package_reported (before after : list string) (y : string) :
  y ∈ after → y ∉ before → starts_with_letter y = true →
  String "+" y ∈ kept (rpmdiff_lines before after)
  ∧ ∃ pre post,
      body_of (rpmdiff_lines before after) = pre +:+ String "+" y +:+ NL +:+ post.
Proof.
  intros Hy Hny Hs.
  assert (String "+" y ∈ kept (rpmdiff_lines before after)) as H.
  { apply DeltaFacts.kept_elem; [by apply DiffLineFacts.added_line|].
    by rewrite EmptyFacts.found_signed by (by right). }
  split; [done|]. by apply DeltaFacts.body_has_line.
Qed.

Lemma added_package_reported_witness :
  String "+" "vim-7.4-1"
    ∈ kept (rpmdiff_lines ["bash-4.2-1"; "zsh-5.0-2"]
                          ["bash-4.2-1"; "vim-7.4-1"; "zsh-5.0-2"])
  ∧ ∃ pre post,
      body_of (rpmdiff_lines ["bash-4.2-1"; "zsh-5.0-2"]
                             ["bash-4.2-1"; "vim-7.4-1"; "zsh-5.0-2"])
      = pre +:+ String "+" "vim-7.4-1" +:+ NL +:+ post.
Proof.
  apply (added_package_reported ["bash-4.2-1"; "zsh-5.0-2"]
           ["bash-4.2-1"; "vim-7.4-1"; "zsh-5.0-2"] "vim-7.4-1");
    [by_evaluation|by_evaluation|reflexivity].
Defined.

(** X6. When no identifier of either snapshot begins with an ASCII letter,
    the body of the report is empty whatever was installed or removed. *)
Theorem report_empty_without_letter_names (before after : list string) :
  Forall (λ x, starts_with_letter x = false) before →
  Forall (λ x, starts_with_letter x = false) after →
  body_of (rpmdiff_lines before after) = ""
  ∧ format before after = seperator +:+ diffheader +:+ seperator.
Proof.
  intros Hb Ha.
  assert (body_of (rpmdiff_lines before after) = "") as H
    by (by rewrite RpmFacts.body_of_kept, DeltaFacts.kept_nil_without_letters).
  split; [done|].
  change (format before after)
    with (seperator +:+ diffheader +:+ body_of (rpmdiff_lines before after)
          +:+ seperator).
  by rewrite H.
Qed.

Lemma report_empty_without_letter_names_witness :
  rpmdiff_lines ["389-ds-base-1.3-1"] ["389-ds-base-1.4-1"; "7zip-9.20-1"] ≠ []
  ∧ body_of (rpmdiff_lines ["389-ds-base-1.3-1"] ["389-ds-base-1.4-1"; "7zip-9.20-1"])
    = ""
  ∧ format ["389-ds-base-1.3-1"] ["389-ds-base-1.4-1"; "7zip-9.20-1"]
    = seperator +:+ diffheader +:+ seperator.
Proof.
  split; [by vm_compute|].
  apply (report_empty_without_letter_names ["389-ds-base-1.3-1"]
           ["389-ds-base-1.4-1"; "7zip-9.20-1"]);
    repeat constructor.
Defined.

(** X7. With an empty first snapshot the diff is the two file headers, one
    hunk header and every identifier of the second snapshot with a [+], in
    order (and nothing at all when the second is empty too); the body lists
    those that begin with a letter. *)
Theorem report_from_empty_snapshot (after : list string) :
  rpmdiff_lines [] after
  = match after with
    | [] => []
    | _ => "--- " :: "+++ "
           :: ("@@ -0,0 +" +:+ Difflib._format_range_unified 0 (length after) +:+ " @@")
           :: (String "+" <$> after)
    end
  ∧ body_of (rpmdiff_lines [] after)
    = concat_lines (String "+" <$> filter (λ x, starts_with_letter x) after).
Proof.
  assert (H := EmptyFacts.unified_diff_nil_l after). split; [done|].
  rewrite RpmFacts.body_of_kept. unfold rpmdiff_lines. rewrite H.
  destruct after as [|y after]; [done|].
  set (l := y :: after). f_equal.
  rewrite <- EmptyFacts.kept_signed by (by right).
  exact (DeltaFacts.kept_headers
           ("@ -0,0 +" +:+ Difflib._format_range_unified 0 (length l) +:+ " @@")
           (String "+" <$> l)).
Qed.

(** X8. With an empty second snapshot the diff is the two file headers, one
    hunk header and every identifier of the first snapshot with a [-], in
    order; the body lists those that begin with a letter. *)
Theorem report_to_empty_snapshot (before : list string) :
  rpmdiff_lines before []
  = match before with
    | [] => []
    | _ => "--- " :: "+++ "
           :: ("@@ -" +:+ Difflib._format_range_unified 0 (length before) +:+ " +0,0 @@")
           :: (String "-" <$> before)
    end
  ∧ body_of (rpmdiff_lines before [])
    = concat_lines (String "-" <$> filter (λ x, starts_with_letter x) before).
Proof.
  assert (H := EmptyFacts.unified_diff_nil_r before). split; [done|].
  rewrite RpmFacts.body_of_kept. unfold rpmdiff_lines. rewrite H.
  destruct before as [|x before]; [done|].
  set (l := x :: before). f_equal.
  rewrite <- EmptyFacts.kept_signed by (by left).
  exact (DeltaFacts.kept_headers
           ("@ -" +:+ Difflib._format_range_unified 0 (length l) +:+ " +0,0 @@")
           (String "-" <$> l)).
Qed.

(** X9. The diff itself, before the filter: an identifier that is in one
    snapshot only is in the diff with its sign, whatever its first character;
    and every line of the diff is a control line, an identifier of the first
    snapshot after a space or a [-], or an identifier of the second snapshot
    after a [+]. *)
Theorem diff_lines_sound_and_complete (before after : list string) :
  (∀ x, x ∈ before → x ∉ after → String "-" x ∈ rpmdiff_lines before after)
  ∧ (∀ y, y ∈ after → y ∉ before → String "+" y ∈ rpmdiff_lines before after)
  ∧ Forall (signed_line before after) (rpmdiff_lines before after).
Proof.
  split_and!.
  - intros x. apply DiffLineFacts.removed_line.
  - intros y. apply DiffLineFacts.added_line.
  - apply Forall_forall. intros l. apply DiffLineFacts.unified_diff_signed.
Qed.

Lemma diff_lines_sound_and_complete_witness :
  String "-" "389-ds-base-1.3-1"
    ∈ rpmdiff_lines ["389-ds-base-1.3-1"; "bash-4.2-1"] ["bash-4.2-1"; "zsh-5.0-2"]
  ∧ String "+" "zsh-5.0-2"
    ∈ rpmdiff_lines ["389-ds-base-1.3-1"; "bash-4.2-1"] ["bash-4.2-1"; "zsh-5.0-2"].
Proof.
  split.
  - apply (proj1 (diff_lines_sound_and_complete
                    ["389-ds-base-1.3-1"; "bash-4.2-1"] ["bash-4.2-1"; "zsh-5.0-2"]));
      by_evaluation.
  - apply (proj1 (proj2 (diff_lines_sound_and_complete
                    ["389-ds-base-1.3-1"; "bash-4.2-1"] ["bash-4.2-1"; "zsh-5.0-2"])));
      by_evaluation.
Defined.

(** ** [main] *)

(** X10. When [state] is missing or is not one of the five accepted values,
    [main] fails with the message that quotes the value ([None] when it is
    missing), and no command has been run: the host is as it was. *)
Theorem main_rejects_unaccepted_state {host : Type}
    (run_command : string → host → (Z * string * string) * host)
    (dbMatch : host → list header) (p : Main.params) (h : host) :
  Main.state p = None
  ∨ (∃ st, Main.state p = Some st ∧ Main.py_value st ∉ Main.accepted_states) →
  Main.main host run_command dbMatch p h
  = (Main.fail_json ("value of state must be one of: enabled, disabled, run, got: "
                     +:+ Main.show_state (Main.state p)), h).
Proof.
  intros [H|(st & H & Hst)]; unfold Main.main; rewrite H; [done|].
  by rewrite bool_decide_eq_false_2.
Qed.

Lemma main_rejects_unaccepted_state_witness :
  Main.main (list string) (sample_run_command 2) sample_dbMatch
    (Main.Params (Some (Main.PyStr "present" false)) true) []
  = (Main.fail_json "value of state must be one of: enabled, disabled, run, got: present",
     [])
  ∧ Main.main (list string) (sample_run_command 2) sample_dbMatch
      (Main.Params None true) []
    = (Main.fail_json "value of state must be one of: enabled, disabled, run, got: None",
       []).
Proof.
  split.
  - apply (main_rejects_unaccepted_state (sample_run_command 2) sample_dbMatch
             (Main.Params (Some (Main.PyStr "present" false)) true) []).
    right. exists (Main.PyStr "present" false). split; [reflexivity|by_evaluation].
  - apply (main_rejects_unaccepted_state (sample_run_command 2) sample_dbMatch
             (Main.Params None true) []).
    left. reflexivity.
Defined.

(** X11. A run with the package diff: the first snapshot is taken before the
    enabling command, the second after the test run; the standard output is
    the sanitized output of the test run followed by the report on the two
    snapshots. The module succeeds, with the code 0, exactly when the agent
    ended with the code 2; with any other code, 0 included, it fails with a
    message made of that output and the standard error. *)
Theorem main_run_with_diff {host : Type}
    (run_command : string → host → (Z * string * string) * host)
    (dbMatch : host → list header) (st : Main.pystr) (h h' : host)
    (rc : Z) (out err : string) :
  Main.py_value st = "run" →
  agent_run run_command h = ((rc, out, err), h') →
  let stdout := sanitize out +:+ format (rpm (dbMatch h)) (rpm (dbMatch h')) in
  Main.main host run_command dbMatch (Main.Params (Some st) true) h
  = (if bool_decide (rc = 2%Z) then Main.exit_json true 0 stdout err
     else Main.fail_json ("Puppet encountered errors. " +:+ stdout +:+ " " +:+ err),
     h').
Proof.
  intros Hst Hrun stdout.
  rewrite MainFacts.main_accepted by (rewrite Hst; by_evaluation).
  rewrite Hst, Hrun. simpl. unfold stdout.
  destruct (decide (rc = 2%Z)) as [->|Hrc]; [done|].
  by rewrite bool_decide_eq_true_2, bool_decide_eq_false_2.
Qed.

Lemma main_run_with_diff_witness :
  Main.main (list string) (sample_run_command 2) sample_dbMatch
    (Main.Params (Some (Main.PyStr "run" false)) true) []
  = (Main.exit_json true 0
       ("Notice: Finished catalog run" +:+ NL
        +:+ seperator +:+ diffheader +:+ ("+zsh-5.0-2" +:+ NL) +:+ seperator)
       "",
     ["puppet agent --enable"; "puppet agent --test --color 0"])
  ∧ Main.main (list string) (sample_run_command 0) sample_dbMatch
      (Main.Params (Some (Main.PyStr "run" false)) true) []
    = (Main.fail_json
         ("Puppet encountered errors. "
          +:+ ("Notice: Finished catalog run" +:+ NL
               +:+ seperator +:+ diffheader +:+ ("+zsh-5.0-2" +:+ NL) +:+ seperator)
          +:+ " " +:+ ""),
       ["puppet agent --enable"; "puppet agent --test --color 0"]).
Proof.
  split.
  - exact (main_run_with_diff (sample_run_command 2) sample_dbMatch
             (Main.PyStr "run" false) []
             ["puppet agent --enable"; "puppet agent --test --color 0"]
             2 ("Notice: Finished catalog run" +:+ NL) "" eq_refl eq_refl).
  - exact (main_run_with_diff (sample_run_command 0) sample_dbMatch
             (Main.PyStr "run" false) []
             ["puppet agent --enable"; "puppet agent --test --color 0"]
             0 ("Notice: Finished catalog run" +:+ NL) "" eq_refl eq_refl).
Defined.

(** X12. A run without the package diff never fails: the exit code of the
    agent is passed on as it is, whatever it is, with the sanitized output
    and no report. *)
Theorem main_run_without_diff {host : Type}
    (run_command : string → host → (Z * string * string) * host)
    (dbMatch : host → list header) (st : Main.pystr) (h h' : host)
    (rc : Z) (out err : string) :
  Main.py_value st = "run" →
  agent_run run_command h = ((rc, out, err), h') →
  Main.main host run_command dbMatch (Main.Params (Some st) false) h
  = (Main.exit_json true rc (sanitize out) err, h').
Proof.
  intros Hst Hrun.
  rewrite MainFacts.main_accepted by (rewrite Hst; by_evaluation).
  simpl. rewrite MainFacts.normalise_other by (by rewrite Hst).
  by rewrite Hst, MainFacts.puppet_status_run, Hrun.
Qed.

Lemma main_run_without_diff_witness :
  Main.main (list string) (sample_run_command 4) sample_dbMatch
    (Main.Params (Some (Main.PyStr "run" true)) false) []
  = (Main.exit_json true 4 ("Notice: Finished catalog run" +:+ NL) "",
     ["puppet agent --enable"; "puppet agent --test --color 0"]).
Proof.
  exact (main_run_without_diff (sample_run_command 4) sample_dbMatch
           (Main.PyStr "run" true) []
           ["puppet agent --enable"; "puppet agent --test --color 0"]
           4 ("Notice: Finished catalog run" +:+ NL) "" eq_refl eq_refl).
Defined.

(** X13. For [enable] and [disable], [main] runs the one command
    [puppet agent --<state>] and exits with its code, output and error as
    they are: the output is not sanitized, no code is a failure, and the
    package diff is not made whatever [packagediff] says. *)
Theorem main_enable_disable {host : Type}
    (run_command : string → host → (Z * string * string) * host)
    (dbMatch : host → list header) (st : Main.pystr) (pd : bool) (h h' : host)
    (rc : Z) (out err : string) :
  Main.py_value st = "enable" ∨ Main.py_value st = "disable" →
  run_command ("puppet agent --" +:+ Main.py_value st) h = ((rc, out, err), h') →
  Main.main host run_command dbMatch (Main.Params (Some st) pd) h
  = (Main.exit_json true rc out err, h').
Proof.
  intros Hst Hrun.
  rewrite MainFacts.main_accepted by (destruct Hst as [-> | ->]; by_evaluation).
  rewrite MainFacts.normalise_other by (by destruct Hst as [-> | ->]).
  unfold Main.puppet_status.
  replace (String.eqb (Main.py_value st) "run") with false
    by (by destruct Hst as [-> | ->]).
  by rewrite andb_false_r, Hrun.
Qed.

Lemma main_enable_disable_witness :
  Main.main (list string) (sample_run_command 1) sample_dbMatch
    (Main.Params (Some (Main.PyStr "disable" false)) true) []
  = (Main.exit_json true 1 ("Notice: Finished catalog run" +:+ NL) "",
     ["puppet agent --disable"]).
Proof.
  apply (main_enable_disable (sample_run_command 1) sample_dbMatch
           (Main.PyStr "disable" false) true [] ["puppet agent --disable"]
           1 ("Notice: Finished catalog run" +:+ NL) "");
    [right; reflexivity|reflexivity].
Defined.

(** X14. [enabled] and [disabled] pass the check of the accepted values, but
    they are shortened to [enable] and [disable] by an identity test: when
    the parameter is not the very object of the literal, the command is run
    with the long word. *)
Theorem main_alias_by_identity {host : Type}
    (run_command : string → host → (Z * string * string) * host)
    (dbMatch : host → list header) (interned pd : bool) (h : host) :
  Main.main host run_command dbMatch
    (Main.Params (Some (Main.PyStr "enabled" interned)) pd) h
  = (let r := run_command (if interned then "puppet agent --enable"
                           else "puppet agent --enabled") h in
     (Main.exit_json true r.1.1.1 r.1.1.2 r.1.2, r.2))
  ∧ Main.main host run_command dbMatch
      (Main.Params (Some (Main.PyStr "disabled" interned)) pd) h
    = (let r := run_command (if interned then "puppet agent --disable"
                             else "puppet agent --disabled") h in
       (Main.exit_json true r.1.1.1 r.1.1.2 r.1.2, r.2)).
Proof.
  split; rewrite MainFacts.main_accepted by by_evaluation;
    rewrite andb_false_r; by destruct interned.
Qed.

(** X15. [main] fails in two cases only: the state is missing or not
    accepted, or it is a run with the package diff whose test run ended with
    a code other than 2. *)
Theorem main_fails_iff {host : Type}
    (run_command : string → host → (Z * string * string) * host)
    (dbMatch : host → list header) (p : Main.params) (h : host) :
  (∃ msg, (Main.main host run_command dbMatch p h).1 = Main.fail_json msg)
  ↔ match Main.state p with
    | None => True
    | Some st =>
        Main.py_value st ∉ Main.accepted_states
        ∨ (Main.py_value st = "run" ∧ Main.packagediff p = true
           ∧ (agent_run run_command h).1.1.1 ≠ 2%Z)
    end.
Proof.
  destruct p as [[st|] pd]; simpl.
  2:{ split; [done|]. intros _. by eexists. }
  destruct (decide (Main.py_value st ∈ Main.accepted_states)) as [Hst|Hst].
  - rewrite MainFacts.main_accepted by done.
    destruct pd; simpl.
    + destruct (String.eqb_spec (Main.py_value st) "run") as [Hrun|Hrun].
      * destruct (decide ((agent_run run_command h).1.1.1 ≠ 2%Z)) as [Hrc|Hrc].
        -- rewrite bool_decide_eq_true_2 by done. simpl.
           split; [by right|]. intros _. by eexists.
        -- rewrite bool_decide_eq_false_2 by done. simpl.
           split; [by intros [? ?]|]. intros [?|(_ & _ & ?)]; done.
      * split; [by intros [? ?]|]. intros [?|(? & _)]; done.
    + split; [by intros [? ?]|]. intros [?|(_ & ? & _)]; done.
  - rewrite (MainFacts.main_unaccepted run_command dbMatch st pd h Hst).
    simpl. split; [by left|]. intros _. by eexists.
Qed.

(** X16. A successful run with the package diff that leaves the list of
    installed packages as it was ends with the report without a body. *)
Theorem main_run_unchanged_packages {host : Type}
    (run_command : string → host → (Z * string * string) * host)
    (dbMatch : host → list header) (st : Main.pystr) (h h' : host)
    (out err : string) :
  Main.py_value st = "run" →
  agent_run run_command h = ((2%Z, out, err), h') →
  dbMatch h' = dbMatch h →
  Main.main host run_command dbMatch (Main.Params (Some st) true) h
  = (Main.exit_json true 0 (sanitize out +:+ seperator +:+ diffheader +:+ seperator) err,
     h').
Proof.
  intros Hst Hrun Hdb.
  rewrite MainFacts.main_accepted by (rewrite Hst; by_evaluation).
  rewrite Hst, Hrun. simpl. rewrite Hdb.
  unfold format, formatdiff, rpmdiff_lines.
  by rewrite DifflibFacts.unified_diff_same.
Qed.

Lemma main_run_unchanged_packages_witness :
  Main.main (list string) (sample_run_command 2) (λ _, [Header "bash" "4.2" "1"])
    (Main.Params (Some (Main.PyStr "run" false)) true) []
  = (Main.exit_json true 0
       ("Notice: Finished catalog run" +:+ NL
        +:+ seperator +:+ diffheader +:+ seperator) "",
     ["puppet agent --enable"; "puppet agent --test --color 0"]).
Proof.
  exact (main_run_unchanged_packages (sample_run_command 2)
           (λ _, [Header "bash" "4.2" "1"])
           (Main.PyStr "run" false) []
           ["puppet agent --enable"; "puppet agent --test --color 0"]
           ("Notice: Finished catalog run" +:+ NL) "" eq_refl eq_refl eq_refl).
Defined.

(** X17. End to end: after a successful run with the package diff, a package
    that the run installed (it is in the second snapshot only) or removed
    (it is in the first only), and whose identifier begins with an ASCII
    letter, is named in the standard output of the module, on a line of its
    own with its sign. *)
Theorem main_reports_changed_package {host : Type}
    (run_command : string → host → (Z * string * string) * host)
    (dbMatch : host → list header) (st : Main.pystr) (h h' : host)
    (out err : string) :
  Main.py_value st = "run" →
  agent_run run_command h = ((2%Z, out, err), h') →
  (∀ y, y ∈ rpm (dbMatch h') → y ∉ rpm (dbMatch h) → starts_with_letter y = true →
     ∃ pre post,
       Main.main host run_command dbMatch (Main.Params (Some st) true) h
       = (Main.exit_json true 0 (pre +:+ NL +:+ String "+" y +:+ NL +:+ post) err, h'))
  ∧ (∀ x, x ∈ rpm (dbMatch h) → x ∉ rpm (dbMatch h') → starts_with_letter x = true →
     ∃ pre post,
       Main.main host run_command dbMatch (Main.Params (Some st) true) h
       = (Main.exit_json true 0 (pre +:+ NL +:+ String "-" x +:+ NL +:+ post) err, h')).
Proof.
  intros Hst Hrun.
  assert (∀ l, l ∈ kept (rpmdiff_lines (rpm (dbMatch h)) (rpm (dbMatch h'))) →
            ∃ pre post,
              Main.main host run_command dbMatch (Main.Params (Some st) true) h
              = (Main.exit_json true 0 (pre +:+ NL +:+ l +:+ NL +:+ post) err, h'))
    as Hline.
  { intros l Hl.
    apply list_elem_of_split in Hl as (l1 & l2 & Hl).
    assert (∃ pre0, seperator +:+ diffheader +:+ concat_lines l1 = pre0 +:+ NL)
      as [pre0 Hpre0].
    { induction l1 as [|k l1 IH] using rev_ind.
      - by exists (seperator +:+ "This is the RPM delta").
      - exists (seperator +:+ diffheader +:+ concat_lines l1 +:+ k).
        rewrite RpmFacts.concat_lines_app. simpl.
        by rewrite RpmFacts.append_nil_r, !RpmFacts.append_assoc. }
    exists (sanitize out +:+ pre0), (concat_lines l2 +:+ seperator).
    rewrite MainFacts.main_accepted by (rewrite Hst; by_evaluation).
    rewrite Hst, Hrun. simpl.
    apply (f_equal (λ s, (Main.exit_json true 0 s err, h'))).
    change (format (rpm (dbMatch h)) (rpm (dbMatch h')))
      with (seperator +:+ diffheader
            +:+ body_of (rpmdiff_lines (rpm (dbMatch h)) (rpm (dbMatch h')))
            +:+ seperator).
    rewrite RpmFacts.body_of_kept, Hl, RpmFacts.concat_lines_app. simpl.
    rewrite !RpmFacts.append_assoc.
    rewrite <- (RpmFacts.append_assoc pre0 NL), <- Hpre0.
    by rewrite !RpmFacts.append_assoc. }
  split.
  - intros y Hy Hny Hs. apply Hline, DeltaFacts.kept_elem.
    + by apply DiffLineFacts.added_line.
    + by rewrite EmptyFacts.found_signed by (by right).
  - intros x Hx Hnx Hs. apply Hline, DeltaFacts.kept_elem.
    + by apply DiffLineFacts.removed_line.
    + by rewrite EmptyFacts.found_signed by (by left).
Qed.

Lemma main_reports_changed_package_witness :
  ∃ pre post,
    Main.main (list string) (sample_run_command 2) sample_dbMatch
      (Main.Params (Some (Main.PyStr "run" false)) true) []
    = (Main.exit_json true 0 (pre +:+ NL +:+ String "+" "zsh-5.0-2" +:+ NL +:+ post) "",
       ["puppet agent --enable"; "puppet agent --test --color 0"]).
Proof.
  apply (proj1 (main_reports_changed_package (sample_run_command 2) sample_dbMatch
                  (Main.PyStr "run" false) []
                  ["puppet agent --enable"; "puppet agent --test --color 0"]
                  ("Notice: Finished catalog run" +:+ NL) "" eq_refl eq_refl));
    [by_evaluation|by_evaluation|reflexivity].
Defined.
